(** * RAG pipeline notebook: extractor, chunker, retriever and prompt

    A shallow embedding of the hand-written cells of
    [rag_pipeline (1).ipynb]: [extract_text_from_pdf], [chunk_text],
    [retrieve_relevant_chunks] and the prompt of the generation cell,
    together with the Python primitives they rely on ([str.split],
    [str.join], list slicing and indexing).

    Python integers are unbounded and are modelled by [Z]; a Python [str]
    is modelled by [string], whose characters are the code points 0..255.
    The [while] loop of [chunk_text] need not terminate, so it is run with
    fuel: [None] means that the loop is still running when the fuel is
    spent. *)

From Stdlib Require Import ZArith List Bool Ascii String Lia.
From Stdlib Require Import DecimalString Sorted Permutation.
Import ListNotations.

Local Open Scope string_scope.
Local Open Scope Z_scope.

(** ** Python primitives *)

Section PyList.
Context {A : Type}.

(** [len(l)] as a Python integer. *)
Definition len (l : list A) : Z := Z.of_nat (List.length l).

(** Normalisation of one slice bound: a negative bound counts from the
    end, and the outcome is clamped to [0 .. len]. *)
Definition slice_bound (n i : Z) : Z :=
  if i <? 0 then Z.max (i + n) 0 else Z.min i n.

(** [l[start:stop]]. *)
Definition py_slice (l : list A) (start stop : Z) : list A :=
  let lo := slice_bound (len l) start in
  let hi := slice_bound (len l) stop in
  firstn (Z.to_nat (hi - lo)) (skipn (Z.to_nat lo) l).
End PyList.

(** Exceptions raised by the modelled code. *)
Inductive exn : Type :=
| IndexError
| ExtractionError.

(** Outcome of a Python expression: a value or a raised exception. *)
Inductive result (A : Type) : Type :=
| Ok (a : A)
| Raise (e : exn).
Arguments Ok {A} a.
Arguments Raise {A} e.

Definition bind {A B : Type} (r : result A) (f : A -> result B) : result B :=
  match r with
  | Ok a => f a
  | Raise e => Raise e
  end.

Notation "x <- r ;; k" := (bind r (fun x => k))
  (at level 61, r at next level, right associativity).

(** [[f(x) for x in l]] where [f] may raise: evaluation is left to right
    and the first exception aborts the comprehension. *)
Fixpoint comprehension {A B : Type} (f : A -> result B) (l : list A)
  : result (list B) :=
  match l with
  | [] => Ok []
  | x :: rest =>
      y <- f x ;;
      ys <- comprehension f rest ;;
      Ok (y :: ys)
  end.

(** [l[i]]: indices [-len(l) .. len(l) - 1] are valid, a negative one
    counts from the end; any other raises [IndexError]. *)
Definition py_getitem {A : Type} (l : list A) (i : Z) : result A :=
  let j := if i <? 0 then i + len l else i in
  if (0 <=? j) && (j <? len l) then
    match nth_error l (Z.to_nat j) with
    | Some x => Ok x
    | None => Raise IndexError
    end
  else Raise IndexError.

(** Whitespace as [str.split()] sees it, on the code points 0..255:
    TAB, LF, VT, FF, CR, the separators FS, GS, RS, US, the space,
    NEL (0x85) and the no-break space (0xA0). *)
Definition isspace (c : ascii) : bool :=
  let n := nat_of_ascii c in
  ((9 <=? n) && (n <=? 13) || (28 <=? n) && (n <=? 32)
   || (n =? 133) || (n =? 160))%nat.

(** The truth value of a string ([if s:]): non-empty. *)
Definition truthy (s : string) : bool :=
  match s with
  | EmptyString => false
  | String _ _ => true
  end.

(** Scanner behind [text.split()]: [cur] is the word being read, in
    reverse; a run of whitespace ends it, and empty words are never
    produced. *)
Fixpoint rev_string (acc s : string) : string :=
  match s with
  | EmptyString => acc
  | String c s' => rev_string (String c acc) s'
  end.

Definition flush (cur : string) (ws : list string) : list string :=
  if truthy cur then rev_string "" cur :: ws else ws.

Fixpoint split_from (cur : string) (s : string) : list string :=
  match s with
  | EmptyString => flush cur []
  | String c s' =>
      if isspace c then flush cur (split_from "" s')
      else split_from (String c cur) s'
  end.

(** [text.split()]. *)
Definition split (text : string) : list string := split_from "" text.

(** [sep.join(l)]. *)
Fixpoint join (sep : string) (l : list string) : string :=
  match l with
  | [] => ""
  | [x] => x
  | x :: rest => x ++ sep ++ join sep rest
  end.

(** [str(n)] for a non-negative integer. *)
Definition str_of_nat (n : nat) : string :=
  NilZero.string_of_uint (Nat.to_uint n).

Definition nl : string := String (ascii_of_nat 10) "".

(** ** Extractor *)

(** A PDF as the reader presents it: the outcome of [page.extract_text()]
    for each page, in page order. *)
Definition pdf : Type := list (result string).

(** The marker written before the text of page [i] (0-based):
    [f"\n--- Page {i+1} ---\n"]. *)
Definition page_marker (i : nat) : string :=
  nl ++ "--- Page " ++ str_of_nat (i + 1) ++ " ---" ++ nl.

(** The [for i, page in enumerate(pdf_reader.pages)] loop; [text] is the
    accumulator. An exception of [extract_text] is not caught. *)
Fixpoint extract_pages (i : nat) (pages : pdf) (text : string)
  : result string :=
  match pages with
  | [] => Ok text
  | page :: rest =>
      page_text <- page ;;
      if truthy page_text
      then extract_pages (S i) rest (text ++ page_marker i ++ page_text)
      else extract_pages (S i) rest text
  end.

Definition extract_text_from_pdf (pages : pdf) : result string :=
  extract_pages 0 pages "".

(** ** Chunker *)

(** State of the [while] loop of [chunk_text]. *)
Record loop_state : Type := mkLoop {
  start : Z;
  chunks : list string
}.

Section ChunkLoop.
Variable words : list string.
Variables chunk_size overlap : Z.

(** [start < len(words)] *)
Definition loop_cond (st : loop_state) : bool := start st <? len words.

(** One run of the loop body. *)
Definition loop_body (st : loop_state) : loop_state :=
  let end_ := Z.min (start st + chunk_size) (len words) in
  let chunk := join " " (py_slice words (start st) end_) in
  mkLoop (start st + (chunk_size - overlap)) (chunks st ++ [chunk]).

(** The loop, with fuel. *)
Fixpoint while_loop (fuel : nat) (st : loop_state) : option (list string) :=
  match fuel with
  | O => None
  | S fuel' =>
      if loop_cond st then while_loop fuel' (loop_body st)
      else Some (chunks st)
  end.
End ChunkLoop.

Definition chunk_text (fuel : nat) (text : string) (chunk_size overlap : Z)
  : option (list string) :=
  let words := split text in
  while_loop words chunk_size overlap fuel (mkLoop 0 []).

(** The default arguments [chunk_size=500, overlap=50], which are also the
    ones of the call in the notebook. *)
Definition default_chunk_size : Z := 500.
Definition default_overlap : Z := 50.

(** [chunk_text] returns [cs]: some amount of fuel lets the loop finish. *)
Definition chunk_text_returns (text : string) (chunk_size overlap : Z)
  (cs : list string) : Prop :=
  exists fuel, chunk_text fuel text chunk_size overlap = Some cs.

(** ** Indexer and retriever *)

(** Modelled from the spec: the sentence embedder and the FAISS flat index
    ([SentenceTransformer.encode], [faiss.IndexFlatL2]) are third-party
    libraries whose code is not part of the sources. A backend gives the
    embedding of one text, the distance of the index with its order, and
    [search xb q k], the row of labels that [index.search] returns for the
    query vector [q] over the stored vectors [xb] (the row of distances is
    not used by the caller). *)
Record backend : Type := mkBackend {
  vec : Type;
  dist : Type;
  encode : string -> vec;
  l2 : vec -> vec -> dist;
  dist_leb : dist -> dist -> bool;
  search : list vec -> vec -> Z -> list Z
}.

(** Modelled from the spec: flat index semantics, an exact
    nearest-neighbour search by Euclidean distance that answers with [k]
    labels, closest first. The labels are positions in the stored
    sequence; when fewer than [k] vectors are stored, the missing
    neighbours are reported with the label [-1]. *)
Record flat_index (B : backend) : Prop := mkFlatIndex {
  search_length : forall xb q k,
    0 <= k -> List.length (search B xb q k) = Z.to_nat k;
  search_found : forall xb q k j,
    (j < Nat.min (Z.to_nat k) (List.length xb))%nat ->
    exists i, nth_error (search B xb q k) j = Some (Z.of_nat i)
              /\ (i < List.length xb)%nat;
  search_padded : forall xb q k j,
    (List.length xb <= j < Z.to_nat k)%nat ->
    nth_error (search B xb q k) j = Some (-1);
  search_sorted : forall xb q k j j' i i' x x',
    (j <= j')%nat ->
    nth_error (search B xb q k) j = Some (Z.of_nat i) ->
    nth_error (search B xb q k) j' = Some (Z.of_nat i') ->
    nth_error xb i = Some x ->
    nth_error xb i' = Some x' ->
    dist_leb B (l2 B q x) (l2 B q x') = true;
  search_distinct : forall xb q k j j' i,
    nth_error (search B xb q k) j = Some (Z.of_nat i) ->
    nth_error (search B xb q k) j' = Some (Z.of_nat i) ->
    j = j';
  search_nearest : forall xb q k i i' x x',
    In (Z.of_nat i) (search B xb q k) ->
    ~ In (Z.of_nat i') (search B xb q k) ->
    nth_error xb i = Some x ->
    nth_error xb i' = Some x' ->
    dist_leb B (l2 B q x) (l2 B q x') = true
}.

Section Retriever.
Variable B : backend.

(** The indexing cell: one embedding per chunk, added in order, so that
    label [i] is the position of chunk [i]. *)
Definition build_index (chunks : list string) : list (vec B) :=
  map (encode B) chunks.

(** [retrieve_relevant_chunks(query, embedder, index, chunks, k)]: the
    query is a batch of one row, and [indices[0]] is the row of labels
    found for it. The default is [k=2]. *)
Definition retrieve_relevant_chunks (query : string) (index : list (vec B))
  (chunks : list string) (k : Z) : result (list string) :=
  let query_embedding := encode B query in
  let indices := search B index query_embedding k in
  comprehension (fun i => py_getitem chunks i) indices.
End Retriever.

Definition default_k : Z := 2.

(** A deterministic backend over integer vectors, for running the
    retriever: texts are embedded by their length, the distance is the
    squared Euclidean one, and the search ranks all labels by distance
    (insertion sort, ties by position) before cutting or padding to [k]. *)
Fixpoint sq_l2 (x y : list Z) : Z :=
  match x, y with
  | a :: x', b :: y' => (a - b) * (a - b) + sq_l2 x' y'
  | _, _ => 0
  end.

Fixpoint place (key : nat -> Z) (i : nat) (ranked : list nat) : list nat :=
  match ranked with
  | [] => [i]
  | h :: t => if key h <=? key i then h :: place key i t else i :: ranked
  end.

Definition rank (key : nat -> Z) (labels : list nat) : list nat :=
  fold_left (fun ranked i => place key i ranked) labels [].

(** The order of a ranking: by increasing key. *)
Definition by_key (key : nat -> Z) (a b : nat) : Prop := key a <= key b.

Definition mock_key (xb : list (list Z)) (q : list Z) (i : nat) : Z :=
  sq_l2 q (nth i xb []).

Definition mock_ranked (xb : list (list Z)) (q : list Z) : list nat :=
  rank (mock_key xb q) (seq 0 (List.length xb)).

Definition mock_search (xb : list (list Z)) (q : list Z) (k : Z) : list Z :=
  firstn (Z.to_nat k)
    (map Z.of_nat (mock_ranked xb q) ++ repeat (-1) (Z.to_nat k))%list.

Definition mock_backend : backend :=
  mkBackend (list Z) Z
    (fun s => [Z.of_nat (String.length s)]) sq_l2 Z.leb mock_search.

(** ** Generator *)

(** The prompt of the generation cell:
    [f"Context: {context}\n\nQuery: {query}\nAnswer:"]. *)
Definition prompt (relevant_chunks : list string) (query : string) : string :=
  let context := join nl relevant_chunks in
  "Context: " ++ context ++ nl ++ nl ++ "Query: " ++ query ++ nl ++ "Answer:".

(** ** Notions used in the statements *)

(** The chunk cut at window start [start]. *)
Definition window (words : list string) (chunk_size start : Z) : string :=
  join " " (py_slice words start (Z.min (start + chunk_size) (len words))).

(** The chunks of [c] successive windows, the first one at [start]. *)
Fixpoint windows (words : list string) (chunk_size overlap : Z) (c : nat)
  (start : Z) : list string :=
  match c with
  | O => []
  | S c' =>
      window words chunk_size start
      :: windows words chunk_size overlap c' (start + (chunk_size - overlap))
  end.

(** [ceil(a / b)] for [b > 0], by floor division. *)
Definition ceil_div (a b : Z) : Z := - ((- a) / b).

(** The number of loop iterations for [n] words when the step
    [chunk_size - overlap] is positive. *)
Definition iterations (n chunk_size overlap : Z) : nat :=
  Z.to_nat (ceil_div n (chunk_size - overlap)).

(** A word: non-empty and free of whitespace. *)
Fixpoint no_space (s : string) : bool :=
  match s with
  | EmptyString => true
  | String c s' => negb (isspace c) && no_space s'
  end.

Definition is_word (w : string) : Prop :=
  truthy w = true /\ no_space w = true.

(** A chunk that is the single-space join of at least one word. *)
Definition joined_words (c : string) : Prop :=
  exists ws, ws <> [] /\ Forall is_word ws /\ c = join " " ws.

(** Reading the chunks back in order with the overlaps collapsed: the
    words of the first chunk, then the words of every later chunk but its
    leading [overlap] ones (all of them when it has no more), which it
    shares with its predecessor. *)
Definition collapse_overlaps (overlap : Z) (cs : list string) : list string :=
  match cs with
  | [] => []
  | c :: rest =>
      (split c
       ++ flat_map (fun c' => skipn (Z.to_nat overlap) (split c')) rest)%list
  end.

(** The prompt line by line, as the contract words it: the context under
    its label, a blank line, the query under its label, the answer cue. *)
Definition prompt_lines (relevant_chunks : list string) (query : string)
  : list string :=
  ["Context: " ++ join nl relevant_chunks; ""; "Query: " ++ query; "Answer:"].

(** What one page adds to the extracted text. *)
Definition page_contribution (i : nat) (page_text : string) : string :=
  if truthy page_text then page_marker i ++ page_text else "".

Fixpoint contributions (i : nat) (texts : list string) : string :=
  match texts with
  | [] => ""
  | t :: rest => page_contribution i t ++ contributions (S i) rest
  end.

(** Number of positions of [s] at which [pat] occurs. *)
Fixpoint occurrences (pat s : string) : nat :=
  match s with
  | EmptyString => if prefix pat "" then 1%nat else 0%nat
  | String _ s' => ((if prefix pat s then 1 else 0) + occurrences pat s')%nat
  end.

(** ** The notebook, cell by cell *)

(** The cells in the order of the notebook, a cell that raises ending the
    run (the printed previews, which read [document_text[:500]] and
    [chunks[0][:500]], are kept only for the exception that [chunks[0]]
    can raise): extraction, chunking with the notebook's arguments, the
    index over the chunk embeddings, retrieval with the notebook's [k],
    and the prompt handed to the generator. [None] means that the
    chunking loop is still running when the fuel is spent. *)
Definition rag_pipeline (B : backend) (fuel : nat) (pages : pdf)
  (query : string) : option (result string) :=
  match extract_text_from_pdf pages with
  | Raise e => Some (Raise e)
  | Ok document_text =>
      match chunk_text fuel document_text default_chunk_size default_overlap with
      | None => None
      | Some chunks =>
          Some (_ <- py_getitem chunks 0 ;;
                relevant_chunks <-
                  retrieve_relevant_chunks B query (build_index B chunks)
                    chunks default_k ;;
                Ok (prompt relevant_chunks query))
      end
  end.

(** The words that the pages put into the document: for each page with
    text, the four words of its marker, then the words of the page. *)
Fixpoint document_words (i : nat) (texts : list string) : list string :=
  match texts with
  | [] => []
  | t :: rest =>
      ((if truthy t
        then ["---"; "Page"; str_of_nat (i + 1); "---"] ++ split t
        else [])
       ++ document_words (S i) rest)%list
  end.

(** A valid index of a list: [-len(l) <= i < len(l)]. *)
Definition valid_index {A : Type} (l : list A) (i : Z) : Prop :=
  - len l <= i < len l.

(** ** Running the definitions *)

Example split_demo :
  split ("  hello   world" ++ nl ++ "x ") = ["hello"; "world"; "x"].
Proof. reflexivity. Qed.

Example chunk_demo :
  chunk_text 10 "a b c d e" 3 1 = Some ["a b c"; "c d e"; "e"].
Proof. reflexivity. Qed.

Example extract_demo :
  extract_text_from_pdf [Ok "hello world"; Ok ""] =
  Ok (nl ++ "--- Page 1 ---" ++ nl ++ "hello world").
Proof. reflexivity. Qed.

Example extract_raises_demo :
  extract_text_from_pdf [Ok "a"; Raise ExtractionError; Ok "b"]
  = Raise ExtractionError.
Proof. reflexivity. Qed.

Example page_marker_demo :
  page_marker 9 = nl ++ "--- Page 10 ---" ++ nl.
Proof. reflexivity. Qed.

Example prompt_demo :
  prompt ["c1"; "c2"] "q"
  = "Context: c1" ++ nl ++ "c2" ++ nl ++ nl ++ "Query: q" ++ nl ++ "Answer:".
Proof. reflexivity. Qed.

Example slice_demo :
  py_slice [1; 2; 3; 4; 5] (-3) 4 = [3; 4] /\ py_slice [1; 2; 3] 2 9 = [3].
Proof. split; reflexivity. Qed.

Example getitem_demo :
  py_getitem ["a"; "b"] (-1) = Ok "b" /\ py_getitem ["a"; "b"] 2 = Raise IndexError.
Proof. split; reflexivity. Qed.

Example retrieve_demo :
  retrieve_relevant_chunks mock_backend "xx"
    (build_index mock_backend ["a"; "bbbb"; "cc"]) ["a"; "bbbb"; "cc"] 2
  = Ok ["cc"; "a"].
Proof. reflexivity. Qed.

Example retrieve_pad_demo :
  retrieve_relevant_chunks mock_backend "xx"
    (build_index mock_backend ["a"; "bbbb"]) ["a"; "bbbb"] 4
  = Ok ["a"; "bbbb"; "bbbb"; "bbbb"].
Proof. reflexivity. Qed.

(** * Properties *)

(** ** Arithmetic of the window count *)

Lemma len_nonneg {A : Type} (l : list A) : 0 <= len l.
Proof. unfold len. lia. Qed.

Lemma len_nil_iff {A : Type} (l : list A) : len l = 0 <-> l = [].
Proof.
  unfold len. destruct l; simpl; split; intros H; try reflexivity;
    try discriminate; lia.
Qed.

Lemma ceil_div_bounds (a b : Z) :
  0 < b -> (ceil_div a b - 1) * b < a <= ceil_div a b * b.
Proof.
  intros Hb. unfold ceil_div.
  pose proof (Z.div_mod (- a) b ltac:(lia)) as Hdm.
  pose proof (Z.mod_pos_bound (- a) b Hb) as Hr.
  set (q := (- a) / b) in *. set (r := (- a) mod b) in *. nia.
Qed.

Lemma ceil_div_unique (a b c : Z) :
  0 < b -> (c - 1) * b < a <= c * b -> ceil_div a b = c.
Proof.
  intros Hb Hc. pose proof (ceil_div_bounds a b Hb) as Hq.
  set (q := ceil_div a b) in *. nia.
Qed.

Lemma ceil_div_nonneg (a b : Z) : 0 < b -> 0 <= a -> 0 <= ceil_div a b.
Proof.
  intros Hb Ha. pose proof (ceil_div_bounds a b Hb) as Hq.
  set (q := ceil_div a b) in *. nia.
Qed.

(** ** The loop of [chunk_text] *)

Section ChunkLoopFacts.
Variable words : list string.
Variables W O : Z.

Let run := while_loop words W O.
Let body := loop_body words W O.

Lemma loop_body_start (st : loop_state) :
  start (body st) = start st + (W - O).
Proof. reflexivity. Qed.

Lemma loop_body_chunks (st : loop_state) :
  chunks (body st) = (chunks st ++ [window words W (start st)])%list.
Proof. reflexivity. Qed.

(** Closed form: when the step is positive, [c] iterations run, where
    [c] is the least count with [start + c * step >= len words]. *)
Lemma while_loop_windows (c : nat) :
  0 < W - O ->
  forall (fuel : nat) (st : loop_state),
    (c < fuel)%nat ->
    len words - start st <= Z.of_nat c * (W - O) ->
    (c <> 0%nat -> (Z.of_nat c - 1) * (W - O) < len words - start st) ->
    run fuel st = Some (chunks st ++ windows words W O c (start st))%list.
Proof.
  intros Hs. induction c as [|c IH]; intros fuel st Hf Hup Hlo;
    (destruct fuel as [|fuel]; [lia|]); unfold run; simpl.
  - unfold loop_cond. destruct (Z.ltb_spec (start st) (len words)); [lia|].
    now rewrite app_nil_r.
  - unfold loop_cond. destruct (Z.ltb_spec (start st) (len words)).
    + fold run. fold body. rewrite IH.
      * rewrite loop_body_chunks, loop_body_start, <- app_assoc.
        reflexivity.
      * lia.
      * rewrite loop_body_start. lia.
      * intros Hc. rewrite loop_body_start.
        specialize (Hlo ltac:(lia)). lia.
    + specialize (Hlo ltac:(lia)). nia.
Qed.

(** When the step is not positive and there is a word, a start at or
    below zero stays there: the condition never fails. *)
Lemma while_loop_stuck :
  W <= O -> words <> [] ->
  forall (fuel : nat) (st : loop_state),
    start st <= 0 -> run fuel st = None.
Proof.
  intros Hs Hw. assert (0 < len words) as Hn.
  { pose proof (len_nonneg words). pose proof (len_nil_iff words).
    destruct (Z.eq_dec (len words) 0); [tauto | lia]. }
  induction fuel as [|fuel IH]; intros st Hst; unfold run; simpl.
  - reflexivity.
  - unfold loop_cond. destruct (Z.ltb_spec (start st) (len words)); [|lia].
    fold run. fold body. apply IH. rewrite loop_body_start. lia.
Qed.

(** More fuel does not change a result. *)
Lemma while_loop_more_fuel (fuel fuel' : nat) (st : loop_state)
  (cs : list string) :
  (fuel <= fuel')%nat -> run fuel st = Some cs -> run fuel' st = Some cs.
Proof.
  revert fuel' st. induction fuel as [|fuel IH]; intros fuel' st Hle Hrun.
  - discriminate.
  - destruct fuel' as [|fuel']; [lia|]. unfold run in *. simpl in *.
    destruct (loop_cond words st); [|assumption].
    apply IH; [lia | assumption].
Qed.
End ChunkLoopFacts.

Lemma chunk_text_closed_form (text : string) (W O : Z) (fuel : nat) :
  O < W ->
  (iterations (len (split text)) W O < fuel)%nat ->
  chunk_text fuel text W O
  = Some (windows (split text) W O (iterations (len (split text)) W O) 0).
Proof.
  intros Hs Hf. unfold chunk_text.
  pose proof (len_nonneg (split text)) as Hn.
  pose proof (ceil_div_bounds (len (split text)) (W - O) ltac:(lia)) as Hb.
  pose proof (ceil_div_nonneg (len (split text)) (W - O) ltac:(lia) Hn) as H0.
  rewrite (while_loop_windows (split text) W O
             (iterations (len (split text)) W O)); simpl; try lia;
    try reflexivity; unfold iterations; rewrite Z2Nat.id by lia; lia.
Qed.

Lemma windows_length (words : list string) (W O : Z) (c : nat) (s : Z) :
  List.length (windows words W O c s) = c.
Proof. revert s. induction c as [|c IH]; intros s; simpl; auto. Qed.

Lemma chunk_text_returns_det (text : string) (W O : Z) (cs cs' : list string) :
  chunk_text_returns text W O cs -> chunk_text_returns text W O cs' -> cs = cs'.
Proof.
  intros [f Hf] [f' Hf']. unfold chunk_text in *.
  apply (while_loop_more_fuel _ _ _ f (Nat.max f f')) in Hf; [|lia].
  apply (while_loop_more_fuel _ _ _ f' (Nat.max f f')) in Hf'; [|lia].
  congruence.
Qed.

(** ** Misconfiguration, termination and chunk count *)

(** C1, as the code has it: when the overlap is at least the window size
    and the text has at least one word, [chunk_text] raises nothing and
    never returns. The loop has no guard: the start never moves above
    zero, so the loop condition holds after every number of iterations
    and no amount of fuel yields a result. *)
Theorem chunk_text_misconfigured_never_returns (text : string) (W O : Z) :
  W <= O -> split text <> [] ->
  (forall fuel, chunk_text fuel text W O = None)
  /\ ~ (exists cs, chunk_text_returns text W O cs).
Proof.
  intros Hs Hw.
  assert (forall fuel, chunk_text fuel text W O = None) as Hnone.
  { intros fuel. unfold chunk_text.
    apply while_loop_stuck; simpl; auto; lia. }
  split; [exact Hnone|]. intros [cs [fuel Hf]]. rewrite Hnone in Hf.
  discriminate.
Qed.

Lemma chunk_text_misconfigured_never_returns_witness :
  chunk_text 100 "to be or not" 2 2 = None.
Proof.
  apply (chunk_text_misconfigured_never_returns "to be or not" 2 2).
  - lia.
  - vm_compute. discriminate.
Defined.

(** C1, counterexample: with the one-word text [a], window 1 and
    overlap 1, nothing is rejected: the loop is entered, its first
    iteration produces the chunk [a] and leaves the start at 0, and the
    call then yields no outcome at all, neither a chunk list nor an
    error, the loop still running whatever the fuel. On the non-empty
    text made of one space, which has no word, the same window and
    overlap are not rejected either: the call returns the empty list. *)
Lemma chunk_text_overlap_equal_window_loops :
  split "a" <> [] /\ 1 <= 1
  /\ loop_cond (split "a") (mkLoop 0 []) = true
  /\ loop_body (split "a") 1 1 (mkLoop 0 []) = mkLoop 0 ["a"]
  /\ ~ (exists fuel cs, chunk_text fuel "a" 1 1 = Some cs)
  /\ chunk_text 1 " " 1 1 = Some [].
Proof.
  split; [vm_compute; discriminate|]. split; [lia|].
  split; [reflexivity|]. split; [reflexivity|].
  split; [|reflexivity].
  intros [fuel [cs Hf]]. unfold chunk_text in Hf.
  rewrite while_loop_stuck in Hf.
  - discriminate.
  - lia.
  - vm_compute. discriminate.
  - simpl. lia.
Qed.

(** C2, as the code has it: for every text of [n] words and every
    [O < W], [chunk_text] returns exactly [ceil(n / (W - O))] chunks, one
    per window start below [n]; in particular it returns exactly one chunk
    when [0 < n <= W - O]. *)
Theorem chunk_text_count (text : string) (W O : Z) :
  O < W ->
  exists cs,
    chunk_text_returns text W O cs
    /\ len cs = ceil_div (len (split text)) (W - O)
    /\ (0 < len (split text) <= W - O -> len cs = 1).
Proof.
  intros Hs. set (n := len (split text)).
  exists (windows (split text) W O (iterations n W O) 0).
  assert (0 <= n) as Hn by apply len_nonneg.
  assert (len (windows (split text) W O (iterations n W O) 0)
          = ceil_div n (W - O)) as Hlen.
  { unfold len. rewrite windows_length. unfold iterations.
    apply Z2Nat.id. apply ceil_div_nonneg; lia. }
  split; [|split].
  - exists (S (iterations n W O)). apply chunk_text_closed_form; [lia|].
    fold n. lia.
  - exact Hlen.
  - intros Hone. rewrite Hlen. apply ceil_div_unique; lia.
Qed.

Lemma chunk_text_count_witness :
  exists cs,
    chunk_text_returns "a b c d e" 3 1 cs
    /\ len cs = ceil_div (len (split "a b c d e")) (3 - 1)
    /\ (0 < len (split "a b c d e") <= 3 - 1 -> len cs = 1).
Proof. apply (chunk_text_count "a b c d e" 3 1). lia. Defined.

(** C2, counterexample: the three words [a b c] with window 2 and
    overlap 1 satisfy [n > W] and [O < W]; the code returns the three
    chunks [a b], [b c], [c], while [ceil((n - O) / (W - O))] is 2. And
    the two words [a b], with [0 < n <= W], give the two chunks [a b],
    [b], not one. *)
Lemma chunk_text_count_not_spec_formula :
  (exists cs,
      chunk_text_returns "a b c" 2 1 cs
      /\ len (split "a b c") > 2 /\ 1 < 2
      /\ cs = ["a b"; "b c"; "c"]
      /\ len cs <> ceil_div (len (split "a b c") - 1) (2 - 1))
  /\ (exists cs,
        chunk_text_returns "a b" 2 1 cs
        /\ 0 < len (split "a b") <= 2
        /\ cs = ["a b"; "b"]
        /\ len cs <> 1).
Proof.
  split.
  - exists ["a b"; "b c"; "c"]. split; [exists 4%nat; reflexivity|].
    repeat split; vm_compute; congruence.
  - exists ["a b"; "b"]. split; [exists 3%nat; reflexivity|].
    repeat split; vm_compute; congruence.
Qed.

(** C6: for [0 < O < W] the loop terminates on every text. Each run of
    the body moves the start up by exactly [W - O > 0]; after
    [ceil(n / (W - O))] runs the start is at or past the word count [n];
    the loop performs exactly that many iterations, one per chunk: that
    much fuel and one more unit for the final test give the result, and
    so does any larger amount. *)
Theorem chunk_text_terminates (text : string) (W O : Z) :
  0 < O < W ->
  (forall st,
      start (loop_body (split text) W O st) = start st + (W - O)
      /\ start st < start (loop_body (split text) W O st))
  /\ len (split text) <= Z.of_nat (iterations (len (split text)) W O) * (W - O)
  /\ exists cs,
      List.length cs = iterations (len (split text)) W O
      /\ forall fuel,
          (iterations (len (split text)) W O < fuel)%nat ->
          chunk_text fuel text W O = Some cs.
Proof.
  intros Hs. split; [|split].
  - intros st. simpl. lia.
  - pose proof (len_nonneg (split text)) as Hn.
    pose proof (ceil_div_bounds (len (split text)) (W - O) ltac:(lia)) as Hb.
    pose proof (ceil_div_nonneg (len (split text)) (W - O) ltac:(lia) Hn).
    unfold iterations. rewrite Z2Nat.id by assumption. lia.
  - exists (windows (split text) W O (iterations (len (split text)) W O) 0).
    split; [apply windows_length|].
    intros fuel Hf. apply chunk_text_closed_form; [lia | exact Hf].
Qed.

Lemma chunk_text_terminates_witness :
  exists cs,
    List.length cs
    = iterations (len (split "a b c d e")) default_chunk_size default_overlap
    /\ forall fuel,
        (iterations (len (split "a b c d e")) default_chunk_size
           default_overlap < fuel)%nat ->
        chunk_text fuel "a b c d e" default_chunk_size default_overlap
        = Some cs.
Proof.
  apply (chunk_text_terminates "a b c d e" default_chunk_size default_overlap).
  unfold default_chunk_size, default_overlap. lia.
Defined.

(** C7: on the empty text [chunk_text] returns the empty list of chunks,
    whatever the window size and the overlap: there is no word, the loop
    condition fails at once. *)
Theorem chunk_text_empty (W O : Z) (fuel : nat) :
  chunk_text (S fuel) "" W O = Some [].
Proof. reflexivity. Qed.

(** ** Words: [split] and [join] *)

Lemma truthy_append (a b : string) : truthy (a ++ b) = truthy a || truthy b.
Proof. destruct a; reflexivity. Qed.

Lemma truthy_rev_string (s acc : string) :
  truthy (rev_string acc s) = truthy acc || truthy s.
Proof.
  revert acc. induction s as [|c s IH]; intros acc; simpl.
  - now rewrite orb_false_r.
  - rewrite IH. simpl. now rewrite orb_true_r.
Qed.

Lemma no_space_rev_string (s acc : string) :
  no_space (rev_string acc s) = no_space acc && no_space s.
Proof.
  revert acc. induction s as [|c s IH]; intros acc; simpl.
  - now rewrite andb_true_r.
  - rewrite IH. simpl. destruct (isspace c), (no_space acc), (no_space s);
      reflexivity.
Qed.

Lemma rev_string_twice (w a b : string) :
  rev_string a (rev_string b w) = rev_string (w ++ a) b.
Proof.
  revert a b. induction w as [|c w IH]; intros a b; simpl.
  - reflexivity.
  - now rewrite IH.
Qed.

Lemma flush_words (cur : string) (ws : list string) :
  no_space cur = true -> Forall is_word ws -> Forall is_word (flush cur ws).
Proof.
  intros Hc Hws. unfold flush. destruct (truthy cur) eqn:Ht; [|assumption].
  constructor; [|assumption]. split.
  - rewrite truthy_rev_string, Ht. apply orb_true_r.
  - rewrite no_space_rev_string, Hc. reflexivity.
Qed.

Lemma split_from_words (s cur : string) :
  no_space cur = true -> Forall is_word (split_from cur s).
Proof.
  revert cur. induction s as [|c s IH]; intros cur Hc; simpl.
  - apply flush_words; [assumption | constructor].
  - destruct (isspace c) eqn:Hsp.
    + apply flush_words; [assumption | now apply IH].
    + apply IH. simpl. now rewrite Hsp, Hc.
Qed.

(** Every element of [text.split()] is a word. *)
Lemma split_words (text : string) : Forall is_word (split text).
Proof. apply split_from_words. reflexivity. Qed.

(** Scanning a whitespace-free stretch only extends the word being read. *)
Lemma split_from_no_space (w s cur : string) :
  no_space w = true ->
  split_from cur (w ++ s) = split_from (rev_string cur w) s.
Proof.
  revert cur. induction w as [|c w IH]; intros cur Hw; simpl in *.
  - reflexivity.
  - apply andb_true_iff in Hw as [Hc Hw].
    apply negb_true_iff in Hc. rewrite Hc. now apply IH.
Qed.

Lemma append_empty_r (w : string) : w ++ "" = w.
Proof. induction w as [|c w IH]; simpl; [reflexivity | now rewrite IH]. Qed.

Lemma split_word (w : string) : is_word w -> split w = [w].
Proof.
  intros [Ht Hn]. unfold split.
  rewrite <- (append_empty_r w) at 1.
  rewrite split_from_no_space by assumption. simpl.
  unfold flush. rewrite truthy_rev_string, Ht. simpl.
  rewrite rev_string_twice. simpl. now rewrite append_empty_r.
Qed.

(** Splitting the single-space join of words gives the words back. *)
Lemma split_join (ws : list string) :
  Forall is_word ws -> split (join " " ws) = ws.
Proof.
  induction ws as [|w rest IH]; intros Hws.
  - reflexivity.
  - inversion Hws as [|? ? Hw Hrest]; subst. destruct rest as [|r rest].
    + simpl. now apply split_word.
    + change (join " " (w :: r :: rest))
        with (w ++ String " " (join " " (r :: rest))).
      unfold split. destruct Hw as [Ht Hn].
      rewrite split_from_no_space by assumption.
      change (split_from (rev_string "" w) (String " " (join " " (r :: rest))))
        with (flush (rev_string "" w) (split (join " " (r :: rest)))).
      unfold flush. rewrite truthy_rev_string, Ht. simpl orb. cbv iota.
      rewrite rev_string_twice. simpl rev_string.
      rewrite IH by assumption.
      now rewrite append_empty_r.
Qed.

Lemma join_truthy (sep w : string) (rest : list string) :
  truthy w = true -> truthy (join sep (w :: rest)) = true.
Proof.
  intros Hw. destruct rest as [|r rest]; simpl; [assumption|].
  now rewrite truthy_append, Hw.
Qed.

(** ** Windows as slices *)

Lemma Forall_firstn {A : Type} (P : A -> Prop) (n : nat) (l : list A) :
  Forall P l -> Forall P (firstn n l).
Proof.
  revert l. induction n as [|n IH]; intros [|x l] H; simpl; try constructor;
    inversion H; subst; auto.
Qed.

Lemma Forall_skipn {A : Type} (P : A -> Prop) (n : nat) (l : list A) :
  Forall P l -> Forall P (skipn n l).
Proof.
  revert l. induction n as [|n IH]; intros [|x l] H; simpl; auto.
  inversion H; subst; auto.
Qed.

Lemma py_slice_Forall {A : Type} (P : A -> Prop) (l : list A) (i j : Z) :
  Forall P l -> Forall P (py_slice l i j).
Proof. intros H. unfold py_slice. now apply Forall_firstn, Forall_skipn. Qed.

(** The slice of a window that starts inside the list. *)
Lemma window_slice {A : Type} (l : list A) (W s : Z) :
  0 <= s <= len l -> 0 <= W ->
  py_slice l s (Z.min (s + W) (len l))
  = firstn (Z.to_nat (Z.min W (len l - s))) (skipn (Z.to_nat s) l).
Proof.
  intros Hs HW. unfold py_slice, slice_bound.
  destruct (Z.ltb_spec s 0); [lia|].
  destruct (Z.ltb_spec (Z.min (s + W) (len l)) 0); [lia|].
  rewrite (Z.min_l s (len l)) by lia.
  rewrite (Z.min_l (Z.min (s + W) (len l)) (len l)) by lia.
  f_equal. lia.
Qed.

Lemma window_slice_length {A : Type} (l : list A) (W s : Z) :
  0 <= s <= len l -> 0 <= W ->
  len (py_slice l s (Z.min (s + W) (len l))) = Z.min W (len l - s).
Proof.
  intros Hs HW. rewrite window_slice by assumption. unfold len in *.
  rewrite length_firstn, length_skipn. lia.
Qed.

Section WindowFacts.
Variable words : list string.
Variables W O : Z.
Hypothesis words_ok : Forall is_word words.
Hypothesis step_pos : 0 < W - O.

Let n := len words.

(** A property of every window that starts below the word count holds
    of all the chunks of a run that stops in time. *)
Lemma windows_Forall (P : string -> Prop) :
  (forall s, 0 <= s < n -> P (window words W s)) ->
  forall (c : nat) (s : Z),
    0 <= s ->
    (c <> 0%nat -> s + (Z.of_nat c - 1) * (W - O) < n) ->
    Forall P (windows words W O c s).
Proof.
  intros HP. induction c as [|c IH]; intros s Hs Hc; simpl.
  - constructor.
  - specialize (Hc ltac:(lia)). constructor.
    + apply HP. nia.
    + apply IH; [lia|]. intros Hc'. nia.
Qed.

Lemma window_words (s : Z) :
  0 <= s < n -> 0 <= W ->
  split (window words W s)
  = firstn (Z.to_nat (Z.min W (n - s))) (skipn (Z.to_nat s) words).
Proof.
  intros Hs HW. unfold window. rewrite split_join.
  - apply window_slice; unfold n in *; lia.
  - now apply py_slice_Forall.
Qed.

Lemma window_joined (s : Z) :
  0 <= s < n -> 0 < W ->
  truthy (window words W s) = true /\ joined_words (window words W s).
Proof.
  intros Hs HW. unfold window.
  pose proof (window_slice_length words W s ltac:(unfold n in *; lia)
                ltac:(lia)) as Hlen.
  pose proof (py_slice_Forall is_word words s
                (Z.min (s + W) (len words)) words_ok) as Hall.
  destruct (py_slice words s (Z.min (s + W) (len words))) as [|w ws] eqn:E.
  - unfold n, len in *. simpl in Hlen. lia.
  - split.
    + apply join_truthy. inversion Hall as [|? ? [Hw _] _]. exact Hw.
    + exists (w :: ws). repeat split; [discriminate | assumption].
Qed.

(** The words that the chunks after the first add, once their leading
    [O] words are dropped, are the words from position [s + O] on. *)
Lemma collapse_tail :
  0 <= O ->
  forall (c : nat) (s : Z),
    0 <= s ->
    n - s <= Z.of_nat c * (W - O) ->
    (c <> 0%nat -> s + (Z.of_nat c - 1) * (W - O) < n) ->
    flat_map (fun c' => skipn (Z.to_nat O) (split c'))
      (windows words W O c s)
    = skipn (Z.to_nat (s + O)) words.
Proof.
  intros HO. induction c as [|c IH]; intros s Hs Hup Hlo; simpl.
  - symmetry. apply skipn_all2. unfold n, len in *. lia.
  - specialize (Hlo ltac:(lia)).
    assert (0 <= s < n) as Hsn by nia.
    rewrite window_words by lia.
    rewrite IH; [|lia|lia|intros; nia].
    rewrite skipn_firstn_comm, skipn_skipn.
    replace (Z.to_nat O + Z.to_nat s)%nat with (Z.to_nat (s + O)) by lia.
    destruct (Z.le_gt_cases (s + W) n) as [Hin|Hout].
    + replace (Z.to_nat (s + (W - O) + O))
        with (Z.to_nat (W - O) + Z.to_nat (s + O))%nat by lia.
      rewrite <- skipn_skipn.
      replace (Z.to_nat (Z.min W (n - s)) - Z.to_nat O)%nat
        with (Z.to_nat (W - O)) by lia.
      apply firstn_skipn.
    + replace (skipn (Z.to_nat (s + (W - O) + O)) words) with (@nil string)
        by (symmetry; apply skipn_all2; unfold n, len in *; lia).
      rewrite app_nil_r. apply firstn_all2.
      rewrite length_skipn. unfold n, len in *. lia.
Qed.
End WindowFacts.

(** ** The chunks and the words *)

(** C3: for every text and every word counts [0 <= O < W], the chunk list
    that [chunk_text] returns gives the word sequence of the text back:
    the words of the first chunk followed, for each later chunk, by its
    words minus the leading [O] it shares with its predecessor, are
    exactly [text.split()]. *)
Theorem chunk_text_reconstructs (text : string) (W O : Z) :
  0 <= O < W ->
  exists cs,
    chunk_text_returns text W O cs
    /\ collapse_overlaps O cs = split text.
Proof.
  intros HO. set (words := split text). set (n := len words).
  pose proof (split_words text) as Hw. fold words in Hw.
  pose proof (len_nonneg words) as Hn. fold n in Hn.
  pose proof (ceil_div_bounds n (W - O) ltac:(lia)) as Hb.
  pose proof (ceil_div_nonneg n (W - O) ltac:(lia) Hn) as Hc0.
  exists (windows words W O (iterations n W O) 0). split.
  - exists (S (iterations n W O)).
    apply chunk_text_closed_form; [lia | unfold n, words; lia].
  - assert (Z.of_nat (iterations n W O) = ceil_div n (W - O)) as Hit
        by (unfold iterations; lia).
    destruct (iterations n W O) as [|c] eqn:Ec; simpl.
    + assert (n = 0) as Hz by lia. symmetry. now apply len_nil_iff.
    + assert (0 < n) as Hpos by nia.
      rewrite window_words; [|assumption|fold n; lia|lia].
      rewrite collapse_tail; fold n; try assumption; try lia; try nia.
      rewrite Z.sub_0_r. simpl skipn.
      rewrite ?Z.add_0_l. replace (W - O + O) with W by lia.
      destruct (Z.le_gt_cases W n) as [Hin|Hout].
      * rewrite Z.min_l by lia. apply firstn_skipn.
      * rewrite Z.min_r by lia.
        replace (skipn (Z.to_nat W) words) with (@nil string)
          by (symmetry; apply skipn_all2; unfold n, len in *; lia).
        rewrite app_nil_r. apply firstn_all2. unfold n, len. lia.
Qed.

Lemma chunk_text_reconstructs_witness :
  exists cs,
    chunk_text_returns "the quick brown fox jumps" 3 1 cs
    /\ collapse_overlaps 1 cs = split "the quick brown fox jumps".
Proof. apply (chunk_text_reconstructs "the quick brown fox jumps" 3 1). lia. Defined.

(** C10: for [0 < O < W] every chunk that [chunk_text] returns is a
    non-empty string, the single-space join of at least one word: each
    window starts at an index below the word count, so its slice holds a
    word, and words are non-empty. *)
Theorem chunk_text_chunks_nonempty (text : string) (W O : Z) :
  0 < O < W ->
  exists cs,
    chunk_text_returns text W O cs
    /\ Forall (fun c => c <> "" /\ joined_words c) cs.
Proof.
  intros HO. set (words := split text). set (n := len words).
  pose proof (split_words text) as Hw. fold words in Hw.
  pose proof (len_nonneg words) as Hn. fold n in Hn.
  pose proof (ceil_div_bounds n (W - O) ltac:(lia)) as Hb.
  pose proof (ceil_div_nonneg n (W - O) ltac:(lia) Hn) as Hc0.
  exists (windows words W O (iterations n W O) 0). split.
  - exists (S (iterations n W O)).
    apply chunk_text_closed_form; [lia | unfold n, words; lia].
  - apply windows_Forall; try lia.
    + intros s Hs.
      destruct (window_joined words W Hw s Hs ltac:(lia)) as [Ht Hj].
      split; [|exact Hj]. intros E. rewrite E in Ht. discriminate.
    + intros Hc. unfold iterations. fold n. lia.
Qed.

Lemma chunk_text_chunks_nonempty_witness :
  exists cs,
    chunk_text_returns "the quick brown fox jumps" 3 1 cs
    /\ Forall (fun c => c <> "" /\ joined_words c) cs.
Proof. apply (chunk_text_chunks_nonempty "the quick brown fox jumps" 3 1). lia. Defined.

(** ** Extraction *)

Lemma append_assoc3 (a b c : string) : (a ++ b) ++ c = a ++ b ++ c.
Proof. induction a as [|x a IH]; simpl; [reflexivity | now rewrite IH]. Qed.

Lemma extract_pages_contributions (texts : list string) :
  forall (i : nat) (text : string),
    extract_pages i (map Ok texts) text = Ok (text ++ contributions i texts).
Proof.
  induction texts as [|t texts IH]; intros i text.
  - simpl. now rewrite append_empty_r.
  - cbn [map extract_pages bind contributions]. unfold page_contribution.
    destruct (truthy t); rewrite IH.
    + now rewrite !append_assoc3.
    + reflexivity.
Qed.

(** C5: when every page yields a string, [extract_text_from_pdf] returns
    one string, the concatenation in page order of what each page
    contributes: a page (0-based position [i]) with non-empty text
    contributes a newline, the marker [--- Page i+1 ---], a newline and
    its text; a page with empty text contributes nothing. In particular
    the pages [hello world] and the empty string give the text
    [hello world] under the single marker [--- Page 1 ---]. *)
Theorem extract_text_from_pdf_pages (texts : list string) :
  extract_text_from_pdf (map Ok texts) = Ok (contributions 0 texts)
  /\ (forall i c t,
        page_contribution i (String c t)
        = nl ++ "--- Page " ++ str_of_nat (i + 1) ++ " ---" ++ nl
          ++ String c t)
  /\ (forall i, page_contribution i "" = "")
  /\ (exists s,
        extract_text_from_pdf [Ok "hello world"; Ok ""] = Ok s
        /\ s = nl ++ "--- Page 1 ---" ++ nl ++ "hello world"
        /\ occurrences "--- Page " s = 1%nat).
Proof.
  split; [|split; [|split]].
  - unfold extract_text_from_pdf. now rewrite extract_pages_contributions.
  - intros i c t. unfold page_contribution, page_marker.
    simpl truthy. cbv iota. now rewrite !append_assoc3.
  - reflexivity.
  - eexists. split; [reflexivity|]. split; reflexivity.
Qed.

(** ** Prompt *)

(** C8: the prompt is [Context: ] followed by the retrieved chunks joined
    with newlines, a blank line, [Query: ] followed by the query, a
    newline and the cue [Answer:]; line by line, it is the newline join of
    the labelled context, an empty line, the labelled query and the cue. *)
Theorem prompt_layout (relevant_chunks : list string) (query : string) :
  prompt relevant_chunks query
  = "Context: " ++ join nl relevant_chunks ++ nl ++ nl
    ++ "Query: " ++ query ++ nl ++ "Answer:"
  /\ prompt relevant_chunks query
     = join nl (prompt_lines relevant_chunks query).
Proof.
  split; [reflexivity|]. unfold prompt, prompt_lines. simpl.
  reflexivity.
Qed.

(** ** Indexing and comprehensions *)

Lemma comprehension_Forall2 {A B : Type} (f : A -> result B) (l : list A) :
  (forall x, In x l -> exists y, f x = Ok y) ->
  exists ys, comprehension f l = Ok ys /\ Forall2 (fun x y => f x = Ok y) l ys.
Proof.
  induction l as [|x l IH]; intros Hok; simpl.
  - exists []. split; [reflexivity | constructor].
  - destruct (Hok x (or_introl eq_refl)) as [y Hy].
    destruct IH as [ys [Hys Hall]]; [intros; apply Hok; now right|].
    exists (y :: ys). rewrite Hy, Hys. split; [reflexivity|].
    now constructor.
Qed.

Lemma Forall2_nth_right {A B : Type} (R : A -> B -> Prop) (l : list A)
  (ys : list B) :
  Forall2 R l ys ->
  forall j y, nth_error ys j = Some y ->
    exists x, nth_error l j = Some x /\ R x y.
Proof.
  induction 1 as [|x y0 l ys HR Hall IH]; intros j y Hj.
  - destruct j; discriminate.
  - destruct j as [|j]; simpl in *.
    + injection Hj as <-. now exists x.
    + now apply IH.
Qed.

Lemma Forall2_nth_left {A B : Type} (R : A -> B -> Prop) (l : list A)
  (ys : list B) :
  Forall2 R l ys ->
  forall j x, nth_error l j = Some x ->
    exists y, nth_error ys j = Some y /\ R x y.
Proof.
  induction 1 as [|x0 y l ys HR Hall IH]; intros j x Hj.
  - destruct j; discriminate.
  - destruct j as [|j]; simpl in *.
    + injection Hj as <-. now exists y.
    + now apply IH.
Qed.

Lemma py_getitem_position {A : Type} (l : list A) (i : nat) (x : A) :
  py_getitem l (Z.of_nat i) = Ok x <-> nth_error l i = Some x.
Proof.
  unfold py_getitem. destruct (Z.ltb_spec (Z.of_nat i) 0); [lia|].
  rewrite Nat2Z.id. split.
  - destruct (_ && _); [|discriminate].
    destruct (nth_error l i); [|discriminate]. now intros [= ->].
  - intros Hx. assert (i < List.length l)%nat as Hlt
        by (apply nth_error_Some; congruence).
    destruct (Z.leb_spec 0 (Z.of_nat i)); [|lia].
    destruct (Z.ltb_spec (Z.of_nat i) (len l)); [|unfold len in *; lia].
    simpl. now rewrite Hx.
Qed.

Lemma nth_error_last {A : Type} (l : list A) (d : A) :
  l <> [] -> nth_error l (List.length l - 1) = Some (last l d).
Proof.
  induction l as [|x l IH]; intros Hne; [congruence|].
  destruct l as [|y l]; [reflexivity|].
  change (last (x :: y :: l) d) with (last (y :: l) d).
  specialize (IH ltac:(discriminate)).
  replace (List.length (x :: y :: l) - 1)%nat
    with (S (List.length (y :: l) - 1)) by (simpl; lia).
  exact IH.
Qed.

(** [chunks[-1]] is the last chunk of a non-empty list. *)
Lemma py_getitem_minus_one {A : Type} (l : list A) (d : A) :
  l <> [] -> py_getitem l (-1) = Ok (last l d).
Proof.
  intros Hne. unfold py_getitem. change (-1 <? 0) with true. cbv iota.
  assert (0 < len l) as Hpos.
  { pose proof (len_nonneg l). pose proof (len_nil_iff l).
    destruct (Z.eq_dec (len l) 0); [tauto | lia]. }
  destruct (Z.leb_spec 0 (-1 + len l)); [|lia].
  destruct (Z.ltb_spec (-1 + len l) (len l)); [|lia]. cbn [andb].
  replace (Z.to_nat (-1 + len l)) with (List.length l - 1)%nat
    by (unfold len; lia).
  now rewrite (nth_error_last l d Hne).
Qed.

(** ** Retrieval over a flat index *)

Section RetrieverFacts.
Variable B : backend.
Hypothesis index_ok : flat_index B.
Variable chunks : list string.
Variable query : string.
Variable k : Z.

Let labels := search B (build_index B chunks) (encode B query) k.

Lemma build_index_length :
  List.length (build_index B chunks) = List.length chunks.
Proof. apply length_map. Qed.

(** Every label of the answer can be looked up when there is a chunk. *)
Lemma labels_resolve :
  0 <= k -> chunks <> [] ->
  forall i, In i labels -> exists c, py_getitem chunks i = Ok c.
Proof.
  intros Hk Hne i Hin. apply In_nth_error in Hin as [j Hj].
  assert (j < Z.to_nat k)%nat as Hjk.
  { rewrite <- (search_length B index_ok (build_index B chunks)
                  (encode B query) k Hk).
    apply nth_error_Some. fold labels. congruence. }
  destruct (Nat.lt_ge_cases j (List.length chunks)) as [Hlt|Hge].
  - destruct (search_found B index_ok (build_index B chunks)
                (encode B query) k j) as [p [Hp Hpn]].
    { rewrite build_index_length. lia. }
    fold labels in Hp. rewrite Hj in Hp. injection Hp as ->.
    rewrite build_index_length in Hpn.
    destruct (nth_error chunks p) as [c|] eqn:Ec.
    + exists c. now apply py_getitem_position.
    + apply nth_error_None in Ec. lia.
  - pose proof (search_padded B index_ok (build_index B chunks)
                  (encode B query) k j) as Hp.
    rewrite build_index_length in Hp. specialize (Hp ltac:(lia)).
    fold labels in Hp. rewrite Hj in Hp. injection Hp as ->.
    exists (last chunks ""). now apply py_getitem_minus_one.
Qed.

Lemma retrieve_resolved :
  0 <= k -> chunks <> [] ->
  exists retrieved,
    retrieve_relevant_chunks B query (build_index B chunks) chunks k
    = Ok retrieved
    /\ Forall2 (fun i c => py_getitem chunks i = Ok c) labels retrieved.
Proof.
  intros Hk Hne. unfold retrieve_relevant_chunks. fold labels.
  apply comprehension_Forall2. now apply labels_resolve.
Qed.
End RetrieverFacts.

(** ** The deterministic backend is a flat index *)

Section Ranking.
Variable key : nat -> Z.

Let ordered := StronglySorted (by_key key).

Lemma place_perm (x : nat) (r : list nat) :
  Permutation (place key x r) (x :: r).
Proof.
  induction r as [|h t IH]; simpl.
  - apply Permutation_refl.
  - destruct (key h <=? key x); [|apply Permutation_refl].
    eapply perm_trans; [apply perm_skip, IH | apply perm_swap].
Qed.

Lemma place_sorted (x : nat) (r : list nat) :
  ordered r -> ordered (place key x r).
Proof.
  induction r as [|h t IH]; intros Hr; simpl.
  - repeat constructor.
  - inversion Hr as [|? ? Ht Hh]; subst.
    destruct (Z.leb_spec (key h) (key x)) as [Hle|Hgt].
    + constructor; [now apply IH|].
      apply Forall_forall. intros i Hi.
      apply (Permutation_in _ (place_perm x t)) in Hi as [<-|Hi].
      * exact Hle.
      * rewrite Forall_forall in Hh. now apply Hh.
    + constructor; [assumption|]. constructor.
      * unfold by_key. lia.
      * eapply Forall_impl; [|exact Hh].
        unfold by_key. intros; lia.
Qed.

Lemma rank_from (l acc : list nat) :
  ordered acc ->
  let r := fold_left (fun ranked i => place key i ranked) l acc in
  ordered r /\ Permutation r (acc ++ l).
Proof.
  revert acc. induction l as [|x l IH]; intros acc Hs; simpl.
  - rewrite app_nil_r. split; [assumption | apply Permutation_refl].
  - destruct (IH (place key x acc) (place_sorted x acc Hs)) as [H1 H2].
    split; [exact H1|]. eapply perm_trans; [exact H2|].
    eapply perm_trans; [apply Permutation_app_tail, place_perm|].
    apply Permutation_middle.
Qed.

Lemma rank_sorted (l : list nat) : ordered (rank key l).
Proof. apply (rank_from l []). constructor. Qed.

Lemma rank_perm (l : list nat) : Permutation (rank key l) l.
Proof. apply (rank_from l []). constructor. Qed.

(** In a ranked list, an earlier position has the smaller key. *)
Lemma sorted_positions (r : list nat) :
  ordered r ->
  forall j j' a b,
    (j <= j')%nat -> nth_error r j = Some a -> nth_error r j' = Some b ->
    key a <= key b.
Proof.
  induction 1 as [|h t Ht IH Hh]; intros j j' a b Hle Ha Hb.
  - destruct j; discriminate.
  - destruct j as [|j], j' as [|j']; simpl in *.
    + injection Ha as <-. injection Hb as <-. lia.
    + injection Ha as <-. rewrite Forall_forall in Hh.
      apply Hh. eapply nth_error_In; eassumption.
    + lia.
    + eapply IH; [|eassumption|eassumption]. lia.
Qed.
End Ranking.

Section MockIndex.
Variable xb : list (list Z).
Variable q : list Z.

Let ranked := mock_ranked xb q.

Lemma mock_ranked_perm : Permutation ranked (seq 0 (List.length xb)).
Proof. apply rank_perm. Qed.

Lemma mock_ranked_length : List.length ranked = List.length xb.
Proof.
  rewrite (Permutation_length mock_ranked_perm). apply length_seq.
Qed.

Lemma mock_ranked_In (i : nat) : In i ranked <-> (i < List.length xb)%nat.
Proof.
  split; intros H.
  - apply (Permutation_in _ mock_ranked_perm) in H.
    apply in_seq in H. lia.
  - apply (Permutation_in _ (Permutation_sym mock_ranked_perm)).
    apply in_seq. lia.
Qed.

Lemma mock_ranked_NoDup : NoDup ranked.
Proof.
  apply (Permutation_NoDup (Permutation_sym mock_ranked_perm)).
  apply seq_NoDup.
Qed.

(** The answer position by position: a ranked label, then padding. *)
Lemma mock_search_nth (k : Z) (j : nat) :
  nth_error (mock_search xb q k) j
  = if (j <? Z.to_nat k)%nat
    then if (j <? List.length xb)%nat
         then option_map Z.of_nat (nth_error ranked j)
         else Some (-1)
    else None.
Proof.
  unfold mock_search. fold ranked. rewrite nth_error_firstn.
  destruct (Nat.ltb_spec j (Z.to_nat k)) as [Hk|Hk]; [|reflexivity].
  destruct (Nat.ltb_spec j (List.length xb)) as [Hn|Hn].
  - rewrite nth_error_app1
      by (rewrite length_map, mock_ranked_length; exact Hn).
    apply nth_error_map.
  - rewrite nth_error_app2
      by (rewrite length_map, mock_ranked_length; exact Hn).
    apply nth_error_repeat. lia.
Qed.

(** A non-negative label sits at a position of the ranking. *)
Lemma mock_search_label (k : Z) (j i : nat) :
  nth_error (mock_search xb q k) j = Some (Z.of_nat i) ->
  (j < Z.to_nat k)%nat /\ nth_error ranked j = Some i.
Proof.
  rewrite mock_search_nth.
  destruct (Nat.ltb_spec j (Z.to_nat k)) as [Hk|Hk]; [|discriminate].
  destruct (Nat.ltb_spec j (List.length xb)) as [Hn|Hn].
  - destruct (nth_error ranked j) as [p|]; simpl; [|discriminate].
    intros [= Hp]. apply Nat2Z.inj in Hp. subst. now split.
  - intros [= Hp]. lia.
Qed.

Lemma mock_key_at (i : nat) (x : list Z) :
  nth_error xb i = Some x -> mock_key xb q i = sq_l2 q x.
Proof.
  intros Hx. unfold mock_key. f_equal. now apply nth_error_nth.
Qed.
End MockIndex.

Lemma mock_flat_index : flat_index mock_backend.
Proof.
  constructor; simpl.
  - intros xb q k Hk. unfold mock_search.
    rewrite length_firstn, length_app, repeat_length. lia.
  - intros xb q k j Hj. rewrite mock_search_nth.
    destruct (Nat.ltb_spec j (Z.to_nat k)) as [_|Hk]; [|lia].
    destruct (Nat.ltb_spec j (List.length xb)) as [Hn|Hn]; [|lia].
    destruct (nth_error (mock_ranked xb q) j) as [i|] eqn:Ei.
    + exists i. split; [reflexivity|].
      apply (mock_ranked_In xb q). eapply nth_error_In; eassumption.
    + apply nth_error_None in Ei. rewrite mock_ranked_length in Ei. lia.
  - intros xb q k j Hj. rewrite mock_search_nth.
    destruct (Nat.ltb_spec j (Z.to_nat k)) as [_|Hk]; [|lia].
    destruct (Nat.ltb_spec j (List.length xb)) as [Hn|_]; [lia|reflexivity].
  - intros xb q k j j' i i' x x' Hle Hi Hi' Hx Hx'.
    apply mock_search_label in Hi as [_ Hi].
    apply mock_search_label in Hi' as [_ Hi'].
    apply Z.leb_le.
    rewrite <- (mock_key_at xb q i x Hx), <- (mock_key_at xb q i' x' Hx').
    eapply (sorted_positions (mock_key xb q)); try eassumption.
    apply rank_sorted.
  - intros xb q k j j' i Hi Hi'.
    apply mock_search_label in Hi as [_ Hi].
    apply mock_search_label in Hi' as [_ Hi'].
    eapply (proj1 (NoDup_nth_error (mock_ranked xb q)));
      [apply mock_ranked_NoDup | | congruence].
    apply nth_error_Some. congruence.
  - intros xb q k i i' x x' Hin Hout Hx Hx'.
    apply In_nth_error in Hin as [j Hj].
    apply mock_search_label in Hj as [Hjk Hj].
    assert (In i' (mock_ranked xb q)) as Hi'.
    { apply mock_ranked_In. apply nth_error_Some. congruence. }
    apply In_nth_error in Hi' as [j' Hj'].
    assert (Z.to_nat k <= j')%nat as Hfar.
    { destruct (Nat.le_gt_cases (Z.to_nat k) j') as [|Hlt]; [assumption|].
      exfalso. apply Hout. apply (nth_error_In _ j').
      rewrite mock_search_nth.
      destruct (Nat.ltb_spec j' (Z.to_nat k)); [|lia].
      assert (j' < List.length xb)%nat as Hn.
      { rewrite <- (mock_ranked_length xb q). apply nth_error_Some.
        congruence. }
      destruct (Nat.ltb_spec j' (List.length xb)); [|lia].
      now rewrite Hj'. }
    apply Z.leb_le.
    rewrite <- (mock_key_at xb q i x Hx), <- (mock_key_at xb q i' x' Hx').
    eapply (sorted_positions (mock_key xb q) _ (rank_sorted _ _) j j');
      try eassumption. lia.
Qed.

(** ** Retrieval *)

(** C4: over a flat index built from [N] chunks, retrieval with
    [1 <= k <= N] returns exactly [k] chunks; the chunk at each position
    of the result is the chunk of the original sequence found at the
    label that the search reports at that position; and the result is
    ordered by non-decreasing distance between the query embedding and
    the chunk embeddings, closest first. *)
Theorem retrieve_top_k (B : backend) (chunks : list string) (query : string)
  (k : Z) :
  flat_index B -> 1 <= k <= len chunks ->
  exists retrieved,
    retrieve_relevant_chunks B query (build_index B chunks) chunks k
    = Ok retrieved
    /\ len retrieved = k
    /\ (forall j c, nth_error retrieved j = Some c ->
          exists i,
            nth_error (search B (build_index B chunks) (encode B query) k) j
            = Some (Z.of_nat i)
            /\ nth_error chunks i = Some c)
    /\ (forall j j' c c',
          (j <= j')%nat ->
          nth_error retrieved j = Some c ->
          nth_error retrieved j' = Some c' ->
          dist_leb B (l2 B (encode B query) (encode B c))
            (l2 B (encode B query) (encode B c')) = true).
Proof.
  intros HB Hk.
  assert (chunks <> []) as Hne.
  { intros ->. unfold len in Hk. simpl in Hk. lia. }
  destruct (retrieve_resolved B HB chunks query k ltac:(lia) Hne)
    as [retrieved [Hret Hall]].
  set (labels := search B (build_index B chunks) (encode B query) k) in *.
  assert (List.length labels = Z.to_nat k) as Hlen
      by (apply (search_length B HB); lia).
  assert (forall j c, nth_error retrieved j = Some c ->
            exists i, nth_error labels j = Some (Z.of_nat i)
                      /\ nth_error chunks i = Some c) as Hpos.
  { intros j c Hc.
    destruct (Forall2_nth_right _ _ _ Hall j c Hc) as [l [Hl Hget]].
    assert (j < Z.to_nat k)%nat as Hjk
        by (rewrite <- Hlen; apply nth_error_Some; congruence).
    destruct (search_found B HB (build_index B chunks) (encode B query) k j)
      as [i [Hi _]].
    { rewrite build_index_length. unfold len in Hk. lia. }
    fold labels in Hi. rewrite Hl in Hi. injection Hi as ->.
    exists i. split; [assumption|]. now apply py_getitem_position. }
  exists retrieved. split; [exact Hret|]. split; [|split].
  - unfold len. rewrite <- (Forall2_length Hall), Hlen. lia.
  - exact Hpos.
  - intros j j' c c' Hle Hc Hc'.
    destruct (Hpos j c Hc) as [i [Hi Hci]].
    destruct (Hpos j' c' Hc') as [i' [Hi' Hci']].
    apply (search_sorted B HB (build_index B chunks) (encode B query) k
             j j' i i'); try assumption;
      unfold build_index; now apply map_nth_error.
Qed.

Lemma retrieve_top_k_witness :
  exists retrieved,
    retrieve_relevant_chunks mock_backend "xx"
      (build_index mock_backend ["a"; "bbbb"; "cc"]) ["a"; "bbbb"; "cc"] 2
    = Ok retrieved
    /\ len retrieved = 2.
Proof.
  destruct (retrieve_top_k mock_backend ["a"; "bbbb"; "cc"] "xx" 2
              mock_flat_index ltac:(vm_compute; split; discriminate))
    as [retrieved [Hret [Hlen _]]].
  exists retrieved. split; assumption.
Defined.

(** C9: over a flat index built from a non-empty sequence of [N] chunks,
    retrieval with [k > N] raises nothing and is not cut down to [N]: the
    labels beyond the stored vectors are [-1], which indexing resolves to
    the last chunk, so the result has [k] entries and each entry at a
    position from [N] on is the last chunk. *)
Theorem retrieve_beyond_corpus (B : backend) (chunks : list string)
  (query : string) (k : Z) :
  flat_index B -> chunks <> [] -> len chunks < k ->
  exists retrieved,
    retrieve_relevant_chunks B query (build_index B chunks) chunks k
    = Ok retrieved
    /\ len retrieved = k
    /\ (forall j, (List.length chunks <= j < Z.to_nat k)%nat ->
          nth_error (search B (build_index B chunks) (encode B query) k) j
          = Some (-1)
          /\ nth_error retrieved j = Some (last chunks "")).
Proof.
  intros HB Hne Hk. pose proof (len_nonneg chunks) as Hn.
  destruct (retrieve_resolved B HB chunks query k ltac:(lia) Hne)
    as [retrieved [Hret Hall]].
  set (labels := search B (build_index B chunks) (encode B query) k) in *.
  assert (List.length labels = Z.to_nat k) as Hlen
      by (apply (search_length B HB); lia).
  exists retrieved. split; [exact Hret|]. split.
  - unfold len. rewrite <- (Forall2_length Hall), Hlen. lia.
  - intros j Hj.
    pose proof (search_padded B HB (build_index B chunks) (encode B query)
                  k j) as Hpad.
    rewrite build_index_length in Hpad. specialize (Hpad Hj).
    fold labels in Hpad. split; [exact Hpad|].
    destruct (Forall2_nth_left _ _ _ Hall j (-1) Hpad) as [c [Hc Hget]].
    rewrite (py_getitem_minus_one chunks "" Hne) in Hget.
    injection Hget as <-. exact Hc.
Qed.

Lemma retrieve_beyond_corpus_witness :
  exists retrieved,
    retrieve_relevant_chunks mock_backend "xx"
      (build_index mock_backend ["a"; "bbbb"]) ["a"; "bbbb"] 4
    = Ok retrieved
    /\ len retrieved = 4.
Proof.
  destruct (retrieve_beyond_corpus mock_backend ["a"; "bbbb"] "xx" 4
              mock_flat_index ltac:(discriminate) ltac:(vm_compute; reflexivity))
    as [retrieved [Hret [Hlen _]]].
  exists retrieved. split; assumption.
Defined.

(** * Further properties of the code *)

(** ** The chunks one by one *)

Lemma windows_nth (words : list string) (W O : Z) (c : nat) :
  forall (s : Z) (i : nat),
    (i < c)%nat ->
    nth_error (windows words W O c s) i
    = Some (window words W (s + Z.of_nat i * (W - O))).
Proof.
  induction c as [|c IH]; intros s i Hi; [lia|].
  destruct i as [|i]; simpl windows; simpl nth_error.
  - do 2 f_equal. lia.
  - rewrite IH by lia. do 2 f_equal. lia.
Qed.

(** What [chunk_text] returns when the step is positive: the chunk at
    position [i] is the window that starts at word [i * (W - O)], a start
    below the word count. *)
Lemma chunk_text_positions (text : string) (W O : Z) :
  O < W ->
  exists cs,
    chunk_text_returns text W O cs
    /\ forall i c,
        nth_error cs i = Some c ->
        0 <= Z.of_nat i * (W - O) < len (split text)
        /\ c = window (split text) W (Z.of_nat i * (W - O)).
Proof.
  intros Hs. set (n := len (split text)).
  pose proof (len_nonneg (split text)) as Hn. fold n in Hn.
  pose proof (ceil_div_bounds n (W - O) ltac:(lia)) as Hb.
  pose proof (ceil_div_nonneg n (W - O) ltac:(lia) Hn) as Hc0.
  exists (windows (split text) W O (iterations n W O) 0). split.
  - exists (S (iterations n W O)).
    apply chunk_text_closed_form; [lia | unfold n; lia].
  - intros i c Hc.
    assert (i < iterations n W O)%nat as Hi.
    { rewrite <- (windows_length (split text) W O (iterations n W O) 0).
      apply nth_error_Some. congruence. }
    rewrite windows_nth in Hc by exact Hi. injection Hc as <-.
    assert (Z.of_nat (iterations n W O) = ceil_div n (W - O)) as Hit
        by (unfold iterations; lia).
    split; [nia | f_equal; lia].
Qed.

Lemma firstn_min_skipn {A : Type} (l : list A) (W s : Z) :
  0 <= s <= len l -> 0 <= W ->
  firstn (Z.to_nat (Z.min W (len l - s))) (skipn (Z.to_nat s) l)
  = firstn (Z.to_nat W) (skipn (Z.to_nat s) l).
Proof.
  intros Hs HW. destruct (Z.le_gt_cases W (len l - s)) as [Hle|Hgt].
  - now rewrite Z.min_l by lia.
  - rewrite Z.min_r by lia.
    rewrite !firstn_all2; try reflexivity;
      rewrite length_skipn; unfold len in *; lia.
Qed.

(** X1: for a window size [W >= 0] and an overlap [O < W], the chunk at
    position [i] of the result is the single-space join of the words of
    the text from word [i * (W - O)] on, [W] of them or as many as are
    left. *)
Theorem chunk_text_chunk_at (text : string) (W O : Z) :
  0 <= W -> O < W ->
  exists cs,
    chunk_text_returns text W O cs
    /\ forall i c,
        nth_error cs i = Some c ->
        c = join " " (firstn (Z.to_nat W)
                        (skipn (i * Z.to_nat (W - O)) (split text))).
Proof.
  intros HW Hs. destruct (chunk_text_positions text W O Hs) as [cs [Hret Hpos]].
  exists cs. split; [exact Hret|]. intros i c Hc.
  destruct (Hpos i c Hc) as [Hi ->]. unfold window.
  rewrite window_slice by lia. rewrite firstn_min_skipn by lia.
  do 3 f_equal. nia.
Qed.

Lemma chunk_text_chunk_at_witness :
  exists cs,
    chunk_text_returns "the quick brown fox jumps" 3 1 cs
    /\ forall i c,
        nth_error cs i = Some c ->
        c = join " " (firstn (Z.to_nat 3)
                        (skipn (i * Z.to_nat (3 - 1))
                           (split "the quick brown fox jumps"))).
Proof. apply (chunk_text_chunk_at "the quick brown fox jumps" 3 1); lia. Defined.

(** X2: for [0 < W] and [O < W], the chunk at position [i] has exactly
    [min(W, n - i * (W - O))] words, [n] being the word count of the
    text: never more than [W], never none, and fewer than [W] only when
    its window reaches the end of the text. *)
Theorem chunk_text_chunk_sizes (text : string) (W O : Z) :
  0 < W -> O < W ->
  exists cs,
    chunk_text_returns text W O cs
    /\ forall i c,
        nth_error cs i = Some c ->
        len (split c)
        = Z.min W (len (split text) - Z.of_nat i * (W - O))
        /\ 1 <= len (split c) <= W.
Proof.
  intros HW Hs. destruct (chunk_text_positions text W O Hs) as [cs [Hret Hpos]].
  exists cs. split; [exact Hret|]. intros i c Hc.
  destruct (Hpos i c Hc) as [Hi ->].
  assert (len (split (window (split text) W (Z.of_nat i * (W - O))))
          = Z.min W (len (split text) - Z.of_nat i * (W - O))) as Hlen.
  { rewrite (window_words (split text) W (split_words text)) by lia.
    unfold len in *. rewrite length_firstn, length_skipn. lia. }
  split; [exact Hlen | lia].
Qed.

Lemma chunk_text_chunk_sizes_witness :
  exists cs,
    chunk_text_returns "the quick brown fox jumps" 3 1 cs
    /\ forall i c,
        nth_error cs i = Some c ->
        len (split c)
        = Z.min 3 (len (split "the quick brown fox jumps") - Z.of_nat i * (3 - 1))
        /\ 1 <= len (split c) <= 3.
Proof. apply (chunk_text_chunk_sizes "the quick brown fox jumps" 3 1); lia. Defined.

Lemma window_words_full (words : list string) (W s : Z) :
  Forall is_word words -> 0 <= s < len words -> 0 <= W ->
  split (window words W s)
  = firstn (Z.to_nat W) (skipn (Z.to_nat s) words).
Proof.
  intros Hw Hs HW. rewrite (window_words words W Hw) by lia.
  apply firstn_min_skipn; lia.
Qed.

(** X3: for [0 <= O < W], two consecutive chunks overlap as announced:
    the words of a chunk after its first [W - O] are exactly the first
    [O] words of the next chunk (all its words when it has fewer). *)
Theorem chunk_text_overlap_shared (text : string) (W O : Z) :
  0 <= O < W ->
  exists cs,
    chunk_text_returns text W O cs
    /\ forall i c c',
        nth_error cs i = Some c ->
        nth_error cs (S i) = Some c' ->
        skipn (Z.to_nat (W - O)) (split c) = firstn (Z.to_nat O) (split c').
Proof.
  intros HO.
  destruct (chunk_text_positions text W O ltac:(lia)) as [cs [Hret Hpos]].
  exists cs. split; [exact Hret|]. intros i c c' Hc Hc'.
  destruct (Hpos i c Hc) as [Hi ->]. destruct (Hpos (S i) c' Hc') as [Hi' ->].
  pose proof (split_words text) as Hw.
  rewrite !window_words_full by (try assumption; lia).
  rewrite skipn_firstn_comm, skipn_skipn, firstn_firstn.
  replace (Nat.min (Z.to_nat O) (Z.to_nat W)) with (Z.to_nat O) by lia.
  f_equal; [lia | f_equal; lia].
Qed.

Lemma chunk_text_overlap_shared_witness :
  exists cs,
    chunk_text_returns "the quick brown fox jumps" 3 1 cs
    /\ forall i c c',
        nth_error cs i = Some c ->
        nth_error cs (S i) = Some c' ->
        skipn (Z.to_nat (3 - 1)) (split c) = firstn (Z.to_nat 1) (split c').
Proof.
  apply (chunk_text_overlap_shared "the quick brown fox jumps" 3 1). lia.
Defined.

Lemma chunk_text_single_window (text : string) (W O : Z) :
  0 <= O -> 0 < len (split text) <= W - O ->
  chunk_text 2 text W O = Some [join " " (split text)].
Proof.
  intros HO Hn.
  assert (iterations (len (split text)) W O = 1%nat) as Hit.
  { unfold iterations.
    rewrite (ceil_div_unique (len (split text)) (W - O) 1) by lia.
    reflexivity. }
  rewrite chunk_text_closed_form by (rewrite ?Hit; lia).
  rewrite Hit. simpl windows. unfold window.
  rewrite window_slice by lia.
  replace (Z.to_nat 0) with 0%nat by lia. simpl skipn.
  rewrite firstn_all2 by (unfold len in *; lia). reflexivity.
Qed.

(** X4: a text of at most [W - O] words (and at least one), with
    [O >= 0], comes back as a single chunk, which holds all its words
    separated by single spaces. *)
Theorem chunk_text_short_text (text : string) (W O : Z) :
  0 <= O -> 0 < len (split text) <= W - O ->
  chunk_text_returns text W O [join " " (split text)].
Proof.
  intros HO Hn. exists 2%nat. now apply chunk_text_single_window.
Qed.

Lemma chunk_text_short_text_witness :
  chunk_text_returns ("to be  or" ++ nl ++ "not") default_chunk_size
    default_overlap [join " " (split ("to be  or" ++ nl ++ "not"))].
Proof.
  apply (chunk_text_short_text ("to be  or" ++ nl ++ "not")
           default_chunk_size default_overlap);
    vm_compute; repeat split; discriminate.
Defined.

(** X5: whenever the step [W - O] is positive, every chunk is in normal
    form: its words joined again by single spaces give the chunk back,
    so it carries no newline, tab or run of spaces from the text. *)
Theorem chunk_text_chunks_normalised (text : string) (W O : Z) :
  O < W ->
  exists cs,
    chunk_text_returns text W O cs
    /\ Forall (fun c => join " " (split c) = c) cs.
Proof.
  intros Hs. destruct (chunk_text_positions text W O Hs) as [cs [Hret Hpos]].
  exists cs. split; [exact Hret|]. apply Forall_forall. intros c Hin.
  apply In_nth_error in Hin as [i Hi]. destruct (Hpos i c Hi) as [_ ->].
  unfold window. rewrite split_join; [reflexivity|].
  apply py_slice_Forall, split_words.
Qed.

Lemma chunk_text_chunks_normalised_witness :
  exists cs,
    chunk_text_returns ("to be  or" ++ nl ++ "not") 3 1 cs
    /\ Forall (fun c => join " " (split c) = c) cs.
Proof.
  apply (chunk_text_chunks_normalised ("to be  or" ++ nl ++ "not") 3 1). lia.
Defined.

(** X6: with an overlap [O >= W] and a text that has a word, the loop
    keeps adding chunks: after [k] runs of the body, for every [k], the
    condition still holds, the list holds [k] chunks and the start is
    [k * (W - O)], at or below zero. *)
Theorem chunk_text_misconfigured_accumulates (text : string) (W O : Z)
  (k : nat) :
  W <= O -> split text <> [] ->
  let st := Nat.iter k (loop_body (split text) W O) (mkLoop 0 []) in
  loop_cond (split text) st = true
  /\ List.length (chunks st) = k
  /\ start st = Z.of_nat k * (W - O).
Proof.
  intros Hs Hw. assert (0 < len (split text)) as Hn.
  { pose proof (len_nonneg (split text)).
    pose proof (len_nil_iff (split text)).
    destruct (Z.eq_dec (len (split text)) 0); [tauto | lia]. }
  cbv zeta. induction k as [|k IH]; [|rewrite Nat.iter_succ].
  - split; [|split; reflexivity]. unfold loop_cond. simpl.
    now apply Z.ltb_lt.
  - destruct IH as [_ [Hlen Hstart]].
    assert (Z.of_nat k * (W - O) <= 0) as Hneg
        by (apply Z.mul_nonneg_nonpos; lia).
    set (st := Nat.iter k _ _) in *.
    unfold loop_cond, loop_body. cbn [start chunks].
    rewrite length_app, Hlen, Hstart. split; [|split].
    + apply Z.ltb_lt. lia.
    + simpl. lia.
    + lia.
Qed.

Lemma chunk_text_misconfigured_accumulates_witness :
  List.length
    (chunks (Nat.iter 7 (loop_body (split "to be or not") 2 2) (mkLoop 0 [])))
  = 7%nat.
Proof.
  apply (chunk_text_misconfigured_accumulates "to be or not" 2 2 7).
  - lia.
  - vm_compute. discriminate.
Defined.

(** ** Extraction: failures, composition and the words of the document *)

Lemma extract_pages_raise (texts : list string) (e : exn) (rest : pdf) :
  forall (i : nat) (text : string),
    extract_pages i (map Ok texts ++ Raise e :: rest)%list text = Raise e.
Proof.
  induction texts as [|t texts IH]; intros i text.
  - reflexivity.
  - cbn [map app extract_pages bind]. destruct (truthy t); apply IH.
Qed.

(** X7: an exception of [extract_text] is not caught: when the pages
    before it all yield a string, the exception of the first failing page
    is the outcome of the extraction, whatever text was gathered before
    and whatever pages follow. *)
Theorem extract_text_from_pdf_raises (texts : list string) (e : exn)
  (rest : pdf) :
  extract_text_from_pdf (map Ok texts ++ Raise e :: rest)%list = Raise e.
Proof. apply extract_pages_raise. Qed.

Lemma extract_pages_app (a b : pdf) :
  forall (i : nat) (text : string),
    extract_pages i (a ++ b)%list text
    = (t <- extract_pages i a text ;;
       extract_pages (i + List.length a) b t).
Proof.
  induction a as [|page a IH]; intros i text.
  - simpl. now rewrite Nat.add_0_r.
  - cbn [app extract_pages List.length]. destruct page as [t|e]; simpl bind.
    + replace (i + S (List.length a))%nat with (S i + List.length a)%nat
        by lia.
      destruct (truthy t); apply IH.
    + reflexivity.
Qed.

(** X8: extraction composes along the page sequence: extracting [a ++ b]
    is extracting [a] and then, unless a page of [a] raised, going on
    over [b] from the text gathered so far, with the page numbers of [b]
    shifted by the number of pages of [a]. *)
Theorem extract_text_from_pdf_app (a b : pdf) :
  extract_text_from_pdf (a ++ b)%list
  = (t <- extract_text_from_pdf a ;; extract_pages (List.length a) b t).
Proof. unfold extract_text_from_pdf. now rewrite extract_pages_app. Qed.

Lemma append_empty_iff (a b : string) : a ++ b = "" <-> a = "" /\ b = "".
Proof.
  destruct a; simpl; split.
  - intros ->. now split.
  - now intros [_ ->].
  - discriminate.
  - intros [H _]. discriminate.
Qed.

Lemma contributions_empty_iff (texts : list string) :
  forall i, contributions i texts = "" <-> Forall (fun t => t = "") texts.
Proof.
  induction texts as [|t texts IH]; intros i; simpl.
  - split; [constructor | reflexivity].
  - rewrite append_empty_iff, IH. unfold page_contribution. split.
    + intros [Ht Hall]. constructor; [|assumption].
      destruct t; [reflexivity | discriminate].
    + intros Hall. inversion Hall; subst. now split.
Qed.

Lemma extracted_text_empty_iff (texts : list string) :
  extract_text_from_pdf (map Ok texts) = Ok ""
  <-> Forall (fun t => t = "") texts.
Proof.
  unfold extract_text_from_pdf. rewrite extract_pages_contributions.
  simpl append. rewrite <- (contributions_empty_iff texts 0). split.
  - now intros [= ->].
  - now intros ->.
Qed.

(** X9: when every page yields a string, the extracted text is empty
    exactly when every page yielded the empty string; one page with text
    is enough for a non-empty document. *)
Theorem extract_text_from_pdf_empty_iff (texts : list string) :
  extract_text_from_pdf (map Ok texts) = Ok ""
  <-> Forall (fun t => t = "") texts.
Proof. apply extracted_text_empty_iff. Qed.

(** *** The words of the document *)

Lemma flush_app (cur : string) (ws ws' : list string) :
  (flush cur ws ++ ws')%list = flush cur (ws ++ ws')%list.
Proof. unfold flush. now destruct (truthy cur). Qed.

(** A whitespace character cuts the text: the words before it and the
    words after it. *)
Lemma split_from_app_space (a b : string) (c : ascii) :
  isspace c = true ->
  forall cur,
    split_from cur (a ++ String c b) = (split_from cur a ++ split b)%list.
Proof.
  intros Hc. induction a as [|x a IH]; intros cur; simpl.
  - rewrite Hc. now rewrite flush_app.
  - destruct (isspace x).
    + rewrite IH. now rewrite flush_app.
    + apply IH.
Qed.

Lemma split_space_first (c : ascii) (s : string) :
  isspace c = true -> split (String c s) = split s.
Proof. intros Hc. unfold split. simpl. now rewrite Hc. Qed.

Lemma split_word_space (w s : string) (c : ascii) :
  is_word w -> isspace c = true ->
  split (w ++ String c s) = w :: split s.
Proof.
  intros Hw Hc. unfold split. rewrite split_from_app_space by assumption.
  fold (split w). now rewrite (split_word w Hw).
Qed.

Lemma no_space_digits (d : Decimal.uint) :
  no_space (NilEmpty.string_of_uint d) = true.
Proof. induction d; simpl; auto. Qed.

Lemma str_of_nat_word (n : nat) : is_word (str_of_nat n).
Proof.
  unfold str_of_nat, NilZero.string_of_uint.
  destruct (Nat.to_uint n) eqn:E; split; try reflexivity;
    rewrite <- E at 1; try apply no_space_digits;
    rewrite E; reflexivity.
Qed.

(** The words of a marker followed by a text. *)
Lemma split_page_marker (i : nat) (s : string) :
  split (page_marker i ++ s)
  = (["---"; "Page"; str_of_nat (i + 1); "---"] ++ split s)%list.
Proof.
  unfold page_marker. rewrite !append_assoc3.
  change (nl ++ "--- Page " ++ str_of_nat (i + 1) ++ " ---" ++ nl ++ s)
    with (String (ascii_of_nat 10)
            ("---" ++ String " "
               ("Page" ++ String " "
                  (str_of_nat (i + 1) ++ String " "
                     ("---" ++ String (ascii_of_nat 10) s))))).
  rewrite split_space_first by reflexivity.
  rewrite split_word_space by (try reflexivity; split; reflexivity).
  rewrite split_word_space by (try reflexivity; split; reflexivity).
  rewrite split_word_space by (try reflexivity; apply str_of_nat_word).
  rewrite split_word_space by (try reflexivity; split; reflexivity).
  reflexivity.
Qed.

Lemma contributions_head (texts : list string) :
  forall i,
    contributions i texts = ""
    \/ exists s, contributions i texts = String (ascii_of_nat 10) s.
Proof.
  induction texts as [|t texts IH]; intros i; simpl.
  - now left.
  - unfold page_contribution. destruct (truthy t).
    + right. unfold page_marker. simpl. eexists. reflexivity.
    + simpl. apply IH.
Qed.

Lemma split_contributions (texts : list string) :
  forall i, split (contributions i texts) = document_words i texts.
Proof.
  induction texts as [|t texts IH]; intros i; simpl.
  - reflexivity.
  - unfold page_contribution. destruct (truthy t).
    + rewrite append_assoc3, split_page_marker. cbn [app].
      do 4 f_equal. rewrite <- IH.
      destruct (contributions_head texts (S i)) as [->|[s ->]].
      * rewrite append_empty_r. now rewrite app_nil_r.
      * unfold split at 1. rewrite split_from_app_space by reflexivity.
        fold (split t). now rewrite (split_space_first _ s).
    + simpl. apply IH.
Qed.

(** X10: the words of the extracted document, as [chunk_text] will split
    it: for each page with text, in page order, the four words [---],
    [Page], the page number and [---] of its marker, then the words of
    the page; a page without text adds no word. *)
Theorem extract_text_from_pdf_words (texts : list string) :
  exists document_text,
    extract_text_from_pdf (map Ok texts) = Ok document_text
    /\ split document_text = document_words 0 texts.
Proof.
  exists (contributions 0 texts). split.
  - unfold extract_text_from_pdf. now rewrite extract_pages_contributions.
  - apply split_contributions.
Qed.

(** ** Retrieval: outcomes of the lookup *)

Lemma py_getitem_outcome {A : Type} (l : list A) (i : Z) :
  (valid_index l i /\ exists x, py_getitem l i = Ok x /\ In x l)
  \/ (~ valid_index l i /\ py_getitem l i = Raise IndexError).
Proof.
  unfold valid_index, py_getitem.
  set (j := if i <? 0 then i + len l else i).
  assert (0 <= j < len l <-> - len l <= i < len l) as Hj.
  { unfold j. pose proof (len_nonneg l).
    destruct (Z.ltb_spec i 0); lia. }
  destruct (Z.leb_spec 0 j); destruct (Z.ltb_spec j (len l)); simpl;
    try (right; split; [lia | reflexivity]).
  destruct (nth_error l (Z.to_nat j)) as [x|] eqn:E.
  - left. split; [lia|]. exists x. split; [reflexivity|].
    eapply nth_error_In; eassumption.
  - apply nth_error_None in E. unfold len in *. lia.
Qed.

Lemma comprehension_getitem {A : Type} (l : list A) (labels : list Z) :
  (exists r,
      comprehension (fun i => py_getitem l i) labels = Ok r
      /\ Forall (valid_index l) labels
      /\ Forall2 (fun i c => py_getitem l i = Ok c) labels r)
  \/ (comprehension (fun i => py_getitem l i) labels = Raise IndexError
      /\ Exists (fun i => ~ valid_index l i) labels).
Proof.
  induction labels as [|i labels IH]; simpl.
  - left. exists []. repeat split; constructor.
  - destruct (py_getitem_outcome l i) as [[Hv [x [Hx _]]]|[Hv Hx]];
      rewrite Hx; simpl.
    + destruct IH as [[r [Hr [Hall Hget]]]|[Hr Hex]]; rewrite Hr; simpl.
      * left. exists (x :: r). repeat split; constructor; assumption.
      * right. split; [reflexivity | now apply Exists_cons_tl].
    + right. split; [reflexivity | now apply Exists_cons_hd].
Qed.

(** X11: whatever the index answers, [retrieve_relevant_chunks] either
    returns one chunk per label, each label being a valid index of
    [chunks] (from [-len(chunks)] to [len(chunks) - 1]) and each chunk the
    one found at its label, or raises [IndexError], which happens exactly
    when some label is not a valid index: the lookup is the only check of
    the labels against the chunk list. *)
Theorem retrieve_relevant_chunks_outcome (B : backend) (query : string)
  (index : list (vec B)) (chunks : list string) (k : Z) :
  let labels := search B index (encode B query) k in
  (exists retrieved,
      retrieve_relevant_chunks B query index chunks k = Ok retrieved
      /\ List.length retrieved = List.length labels
      /\ Forall (valid_index chunks) labels
      /\ Forall2 (fun i c => py_getitem chunks i = Ok c) labels retrieved)
  \/ (retrieve_relevant_chunks B query index chunks k = Raise IndexError
      /\ Exists (fun i => ~ valid_index chunks i) labels).
Proof.
  intros labels. unfold retrieve_relevant_chunks. fold labels.
  destruct (comprehension_getitem chunks labels)
    as [[r [Hr [Hall Hget]]]|[Hr Hex]].
  - left. exists r. repeat split; try assumption.
    symmetry. eapply Forall2_length; eassumption.
  - right. now split.
Qed.

(** X12: over a flat index with no vector and an empty chunk list, every
    retrieval with [k >= 1] raises [IndexError]: the first label is the
    padding label [-1], and [chunks[-1]] does not exist. *)
Theorem retrieve_empty_corpus (B : backend) (query : string) (k : Z) :
  flat_index B -> 1 <= k ->
  retrieve_relevant_chunks B query (build_index B []) [] k = Raise IndexError.
Proof.
  intros HB Hk. unfold retrieve_relevant_chunks.
  pose proof (search_padded B HB (build_index B []) (encode B query) k 0)
    as Hpad.
  change (build_index B []) with (@nil (vec B)) in *.
  simpl in Hpad. specialize (Hpad ltac:(lia)).
  destruct (search B [] (encode B query) k) as [|i labels]; [discriminate|].
  simpl in Hpad. injection Hpad as ->. reflexivity.
Qed.

Lemma retrieve_empty_corpus_witness :
  retrieve_relevant_chunks mock_backend "xx" (build_index mock_backend []) []
    default_k
  = Raise IndexError.
Proof.
  apply (retrieve_empty_corpus mock_backend "xx" default_k mock_flat_index).
  vm_compute. discriminate.
Defined.

(** X13: over a flat index built from [N] pairwise distinct chunks,
    retrieval with [1 <= k <= N] returns [k] pairwise distinct chunks: no
    chunk is retrieved twice. *)
Theorem retrieve_no_duplicates (B : backend) (chunks : list string)
  (query : string) (k : Z) :
  flat_index B -> NoDup chunks -> 1 <= k <= len chunks ->
  exists retrieved,
    retrieve_relevant_chunks B query (build_index B chunks) chunks k
    = Ok retrieved
    /\ len retrieved = k
    /\ NoDup retrieved.
Proof.
  intros HB Hnd Hk.
  assert (chunks <> []) as Hne.
  { intros ->. unfold len in Hk. simpl in Hk. lia. }
  destruct (retrieve_resolved B HB chunks query k ltac:(lia) Hne)
    as [retrieved [Hret Hall]].
  set (labels := search B (build_index B chunks) (encode B query) k) in *.
  assert (List.length labels = Z.to_nat k) as Hlen
      by (apply (search_length B HB); lia).
  assert (forall j c, nth_error retrieved j = Some c ->
            exists i, nth_error labels j = Some (Z.of_nat i)
                      /\ nth_error chunks i = Some c) as Hpos.
  { intros j c Hc.
    destruct (Forall2_nth_right _ _ _ Hall j c Hc) as [l [Hl Hget]].
    assert (j < Z.to_nat k)%nat as Hjk
        by (rewrite <- Hlen; apply nth_error_Some; congruence).
    destruct (search_found B HB (build_index B chunks) (encode B query) k j)
      as [i [Hi _]].
    { rewrite build_index_length. unfold len in Hk. lia. }
    fold labels in Hi. rewrite Hl in Hi. injection Hi as ->.
    exists i. split; [assumption|]. now apply py_getitem_position. }
  exists retrieved. split; [exact Hret|]. split.
  - unfold len. rewrite <- (Forall2_length Hall), Hlen. lia.
  - apply NoDup_nth_error. intros j j' Hj Heq.
    destruct (nth_error retrieved j) as [c|] eqn:Ec;
      [|apply nth_error_None in Ec; lia].
    symmetry in Heq.
    destruct (Hpos j c Ec) as [i [Hi Hci]].
    destruct (Hpos j' c Heq) as [i' [Hi' Hci']].
    assert (i = i') as <-.
    { apply (proj1 (NoDup_nth_error chunks) Hnd);
        [apply nth_error_Some; congruence | congruence]. }
    apply (search_distinct B HB (build_index B chunks) (encode B query) k
             j j' i); assumption.
Qed.

Lemma retrieve_no_duplicates_witness :
  exists retrieved,
    retrieve_relevant_chunks mock_backend "xx"
      (build_index mock_backend ["a"; "bbbb"; "cc"]) ["a"; "bbbb"; "cc"] 3
    = Ok retrieved
    /\ len retrieved = 3
    /\ NoDup retrieved.
Proof.
  apply (retrieve_no_duplicates mock_backend ["a"; "bbbb"; "cc"] "xx" 3
           mock_flat_index).
  - repeat constructor; simpl; intuition discriminate.
  - vm_compute. split; discriminate.
Defined.

(** ** The notebook from the PDF to the prompt *)

Lemma document_words_nonempty (texts : list string) :
  Exists (fun t => t <> "") texts ->
  forall i, document_words i texts <> [].
Proof.
  induction 1 as [t texts Ht|t texts Hex IH]; intros i; simpl.
  - destruct t; [congruence | discriminate].
  - destruct (truthy t); [discriminate | apply IH].
Qed.

Lemma py_getitem_In {A : Type} (l : list A) (i : Z) (x : A) :
  py_getitem l i = Ok x -> In x l.
Proof.
  intros Hx. destruct (py_getitem_outcome l i) as [[_ [y [Hy Hin]]]|[_ Hr]];
    congruence.
Qed.

Lemma chunk_text_some_chunk (text : string) (W O : Z) :
  O < W -> split text <> [] ->
  exists fuel c cs, chunk_text fuel text W O = Some (c :: cs).
Proof.
  intros Hs Hw. set (n := len (split text)).
  assert (0 < n) as Hn.
  { pose proof (len_nonneg (split text)).
    pose proof (len_nil_iff (split text)).
    destruct (Z.eq_dec (len (split text)) 0); [tauto | unfold n; lia]. }
  pose proof (ceil_div_bounds n (W - O) ltac:(lia)) as Hb.
  exists (S (iterations n W O)).
  rewrite chunk_text_closed_form by (try lia; unfold n; lia).
  fold n. destruct (iterations n W O) as [|c] eqn:Ec.
  - unfold iterations in Ec. exfalso.
    assert (ceil_div n (W - O) <= 0) by lia. nia.
  - simpl. eauto.
Qed.

(** X14: a PDF whose pages all yield the empty string stops the notebook
    at the preview of the first chunk: the document is empty, there is no
    chunk, and [chunks[0]] raises [IndexError]. *)
Theorem rag_pipeline_no_text (B : backend) (texts : list string)
  (query : string) (fuel : nat) :
  Forall (fun t => t = "") texts ->
  rag_pipeline B (S fuel) (map Ok texts) query = Some (Raise IndexError).
Proof.
  intros Hall. unfold rag_pipeline.
  rewrite (proj2 (extracted_text_empty_iff texts) Hall).
  reflexivity.
Qed.

Lemma rag_pipeline_no_text_witness :
  rag_pipeline mock_backend 1 (map Ok [""; ""]) "q" = Some (Raise IndexError).
Proof.
  apply (rag_pipeline_no_text mock_backend [""; ""] "q" 0).
  repeat constructor.
Defined.

(** The run of the notebook once the document is known. *)
Lemma rag_pipeline_document (B : backend) (fuel : nat) (texts : list string)
  (query : string) :
  exists document_text,
    extract_text_from_pdf (map Ok texts) = Ok document_text
    /\ split document_text = document_words 0 texts
    /\ rag_pipeline B fuel (map Ok texts) query
       = match chunk_text fuel document_text default_chunk_size
                 default_overlap with
         | None => None
         | Some chunks =>
             Some (_ <- py_getitem chunks 0 ;;
                   relevant_chunks <-
                     retrieve_relevant_chunks B query (build_index B chunks)
                       chunks default_k ;;
                   Ok (prompt relevant_chunks query))
         end.
Proof.
  exists (contributions 0 texts). unfold rag_pipeline, extract_text_from_pdf.
  rewrite extract_pages_contributions. simpl append.
  repeat split. apply split_contributions.
Qed.

(** X15: over a flat index, a document of 1 to 450 words (markers
    included) is a single chunk, and the notebook's retrieval with [k = 2]
    hands that chunk twice to the prompt: the context is the document's
    words joined by single spaces, a newline, and the same again. *)
Theorem rag_pipeline_short_document (B : backend) (texts : list string)
  (query : string) :
  flat_index B ->
  0 < len (document_words 0 texts) <= 450 ->
  let c := join " " (document_words 0 texts) in
  rag_pipeline B 2 (map Ok texts) query = Some (Ok (prompt [c; c] query)).
Proof.
  intros HB Hn c.
  destruct (rag_pipeline_document B 2 texts query) as [doc [_ [Hw ->]]].
  rewrite chunk_text_single_window
    by (unfold default_chunk_size, default_overlap; rewrite ?Hw; lia).
  rewrite Hw. fold c. change (py_getitem [c] 0) with (Ok c).
  unfold retrieve_relevant_chunks.
  change (build_index B [c]) with [encode B c]. cbn [bind].
  pose proof (search_length B HB (build_index B [c]) (encode B query)
                default_k ltac:(unfold default_k; lia)) as Hlen.
  destruct (search_found B HB (build_index B [c]) (encode B query)
              default_k 0 ltac:(simpl; lia)) as [i [H0 Hi]].
  pose proof (search_padded B HB (build_index B [c]) (encode B query)
                default_k 1 ltac:(simpl; lia)) as H1.
  change (build_index B [c]) with [encode B c] in *.
  destruct (search B [encode B c] (encode B query) default_k)
    as [|l0 [|l1 [|l2 labels]]]; try discriminate.
  simpl in H0, H1, Hi. injection H0 as ->. injection H1 as ->.
  assert (i = 0%nat) as -> by lia. reflexivity.
Qed.

Lemma rag_pipeline_short_document_witness :
  rag_pipeline mock_backend 2 (map Ok ["hello world"; ""]) "q"
  = Some (Ok (prompt ["--- Page 1 --- hello world";
                      "--- Page 1 --- hello world"] "q")).
Proof.
  apply (rag_pipeline_short_document mock_backend ["hello world"; ""] "q"
           mock_flat_index).
  vm_compute. split; [reflexivity | discriminate].
Defined.

(** X16: over a flat index, as soon as one page yields text the notebook
    reaches the prompt: the document has a word, so there is a first
    chunk to preview, and retrieval with [k = 2] raises nothing and
    returns two chunks, each taken from the chunk list. *)
Theorem rag_pipeline_reaches_prompt (B : backend) (texts : list string)
  (query : string) :
  flat_index B -> Exists (fun t => t <> "") texts ->
  exists fuel document_text chunks relevant_chunks,
    extract_text_from_pdf (map Ok texts) = Ok document_text
    /\ chunk_text fuel document_text default_chunk_size default_overlap
       = Some chunks
    /\ rag_pipeline B fuel (map Ok texts) query
       = Some (Ok (prompt relevant_chunks query))
    /\ List.length relevant_chunks = 2%nat
    /\ Forall (fun c => In c chunks) relevant_chunks.
Proof.
  intros HB Hex.
  destruct (rag_pipeline_document B 0 texts query) as [doc [Hdoc [Hw _]]].
  destruct (chunk_text_some_chunk doc default_chunk_size default_overlap)
    as [fuel [c [cs Hcs]]].
  { unfold default_chunk_size, default_overlap. lia. }
  { rewrite Hw. now apply document_words_nonempty. }
  destruct (rag_pipeline_document B fuel texts query)
    as [doc' [Hdoc' [_ Hrun]]].
  assert (doc' = doc) as -> by congruence.
  rewrite Hcs in Hrun. change (py_getitem (c :: cs) 0) with (Ok c) in Hrun.
  cbn [bind] in Hrun.
  destruct (retrieve_resolved B HB (c :: cs) query default_k
              ltac:(unfold default_k; lia) ltac:(discriminate))
    as [relevant [Hret Hall]].
  rewrite Hret in Hrun.
  exists fuel, doc, (c :: cs), relevant. repeat split; try assumption.
  - rewrite <- (Forall2_length Hall).
    now rewrite (search_length B HB) by (unfold default_k; lia).
  - apply Forall_forall. intros x Hx. apply In_nth_error in Hx as [j Hj].
    destruct (Forall2_nth_right _ _ _ Hall j x Hj) as [l [_ Hget]].
    eapply py_getitem_In; eassumption.
Qed.

Lemma rag_pipeline_reaches_prompt_witness :
  exists fuel document_text chunks relevant_chunks,
    extract_text_from_pdf (map Ok [""; "hello world"]) = Ok document_text
    /\ chunk_text fuel document_text default_chunk_size default_overlap
       = Some chunks
    /\ rag_pipeline mock_backend fuel (map Ok [""; "hello world"]) "q"
       = Some (Ok (prompt relevant_chunks "q"))
    /\ List.length relevant_chunks = 2%nat
    /\ Forall (fun c => In c chunks) relevant_chunks.
Proof.
  apply (rag_pipeline_reaches_prompt mock_backend [""; "hello world"] "q"
           mock_flat_index).
  apply Exists_cons_tl, Exists_cons_hd. discriminate.
Defined.

(** ** Retrieval within the corpus *)

(** Retrieval with [1 <= k <= N] over a flat index, position by
    position: the labels are positions of chunks, and each retrieved
    chunk is the one at its label. *)
Lemma retrieve_positions (B : backend) (chunks : list string)
  (query : string) (k : Z) :
  flat_index B -> 1 <= k <= len chunks ->
  exists retrieved,
    retrieve_relevant_chunks B query (build_index B chunks) chunks k
    = Ok retrieved
    /\ len retrieved = k
    /\ (forall j c, nth_error retrieved j = Some c ->
          exists i,
            nth_error (search B (build_index B chunks) (encode B query) k) j
            = Some (Z.of_nat i)
            /\ nth_error chunks i = Some c)
    /\ (forall j i c,
          nth_error (search B (build_index B chunks) (encode B query) k) j
          = Some (Z.of_nat i) ->
          nth_error chunks i = Some c ->
          nth_error retrieved j = Some c).
Proof.
  intros HB Hk.
  assert (chunks <> []) as Hne.
  { intros ->. unfold len in Hk. simpl in Hk. lia. }
  destruct (retrieve_resolved B HB chunks query k ltac:(lia) Hne)
    as [retrieved [Hret Hall]].
  set (labels := search B (build_index B chunks) (encode B query) k) in *.
  assert (List.length labels = Z.to_nat k) as Hlen
      by (apply (search_length B HB); lia).
  exists retrieved. split; [exact Hret|]. split; [|split].
  - unfold len. rewrite <- (Forall2_length Hall), Hlen. lia.
  - intros j c Hc.
    destruct (Forall2_nth_right _ _ _ Hall j c Hc) as [l [Hl Hget]].
    assert (j < Z.to_nat k)%nat as Hjk
        by (rewrite <- Hlen; apply nth_error_Some; congruence).
    destruct (search_found B HB (build_index B chunks) (encode B query) k j)
      as [i [Hi _]].
    { rewrite build_index_length. unfold len in Hk. lia. }
    fold labels in Hi. rewrite Hl in Hi. injection Hi as ->.
    exists i. split; [assumption|]. now apply py_getitem_position.
  - intros j i c Hj Hc.
    destruct (Forall2_nth_left _ _ _ Hall j _ Hj) as [c' [Hc' Hget]].
    apply py_getitem_position in Hget. congruence.
Qed.

Lemma NoDup_by_positions (labels : list Z) (chunks retrieved : list string) :
  NoDup chunks ->
  (forall j c, nth_error retrieved j = Some c ->
     exists i, nth_error labels j = Some (Z.of_nat i)
               /\ nth_error chunks i = Some c) ->
  (forall j j' i,
     nth_error labels j = Some (Z.of_nat i) ->
     nth_error labels j' = Some (Z.of_nat i) -> j = j') ->
  NoDup retrieved.
Proof.
  intros Hnd Hpos Hdis. apply NoDup_nth_error. intros j j' Hj Heq.
  destruct (nth_error retrieved j) as [c|] eqn:Ec;
    [|apply nth_error_None in Ec; lia].
  symmetry in Heq.
  destruct (Hpos j c Ec) as [i [Hi Hci]].
  destruct (Hpos j' c Heq) as [i' [Hi' Hci']].
  assert (i = i') as <-.
  { apply (proj1 (NoDup_nth_error chunks) Hnd);
      [apply nth_error_Some; congruence | congruence]. }
  eapply Hdis; eassumption.
Qed.

(** X17: over a flat index, retrieval with [1 <= k <= N] returns nearest
    chunks: a chunk of the sequence that is not among the retrieved ones
    is at least as far from the query embedding as every retrieved
    chunk. *)
Theorem retrieve_nearest (B : backend) (chunks : list string)
  (query : string) (k : Z) :
  flat_index B -> 1 <= k <= len chunks ->
  exists retrieved,
    retrieve_relevant_chunks B query (build_index B chunks) chunks k
    = Ok retrieved
    /\ forall r c,
        In r retrieved -> In c chunks -> ~ In c retrieved ->
        dist_leb B (l2 B (encode B query) (encode B r))
          (l2 B (encode B query) (encode B c)) = true.
Proof.
  intros HB Hk.
  destruct (retrieve_positions B chunks query k HB Hk)
    as [retrieved [Hret [_ [Hpos Hback]]]].
  exists retrieved. split; [exact Hret|]. intros r c Hr Hc Hout.
  apply In_nth_error in Hr as [j Hj]. destruct (Hpos j r Hj) as [i [Hi Hri]].
  apply In_nth_error in Hc as [i' Hci'].
  apply (search_nearest B HB (build_index B chunks) (encode B query) k i i').
  - eapply nth_error_In; eassumption.
  - intros Hin. apply In_nth_error in Hin as [j' Hj'].
    apply Hout. apply (nth_error_In _ j'). eapply Hback; eassumption.
  - unfold build_index. now apply map_nth_error.
  - unfold build_index. now apply map_nth_error.
Qed.

Lemma retrieve_nearest_witness :
  exists retrieved,
    retrieve_relevant_chunks mock_backend "xx"
      (build_index mock_backend ["a"; "bbbb"; "cc"]) ["a"; "bbbb"; "cc"] 2
    = Ok retrieved
    /\ forall r c,
        In r retrieved -> In c ["a"; "bbbb"; "cc"] -> ~ In c retrieved ->
        dist_leb mock_backend
          (l2 mock_backend (encode mock_backend "xx") (encode mock_backend r))
          (l2 mock_backend (encode mock_backend "xx") (encode mock_backend c))
        = true.
Proof.
  apply (retrieve_nearest mock_backend ["a"; "bbbb"; "cc"] "xx" 2
           mock_flat_index).
  vm_compute. split; discriminate.
Defined.

(** X18: over a flat index built from [N] pairwise distinct chunks,
    retrieval with [k = N] returns every chunk exactly once: the result
    is a rearrangement of the chunk sequence. *)
Theorem retrieve_whole_corpus (B : backend) (chunks : list string)
  (query : string) :
  flat_index B -> NoDup chunks -> chunks <> [] ->
  exists retrieved,
    retrieve_relevant_chunks B query (build_index B chunks) chunks
      (len chunks)
    = Ok retrieved
    /\ Permutation retrieved chunks.
Proof.
  intros HB Hnd Hne.
  assert (1 <= len chunks <= len chunks) as Hk.
  { pose proof (len_nonneg chunks). pose proof (len_nil_iff chunks).
    destruct (Z.eq_dec (len chunks) 0); [tauto | lia]. }
  destruct (retrieve_positions B chunks query (len chunks) HB Hk)
    as [retrieved [Hret [Hlen [Hpos _]]]].
  exists retrieved. split; [exact Hret|].
  apply NoDup_Permutation_bis.
  - eapply NoDup_by_positions; [exact Hnd | exact Hpos |].
    intros j j' i. apply (search_distinct B HB).
  - unfold len in Hlen. lia.
  - intros c Hc. apply In_nth_error in Hc as [j Hj].
    destruct (Hpos j c Hj) as [i [_ Hi]]. eapply nth_error_In; eassumption.
Qed.

Lemma retrieve_whole_corpus_witness :
  exists retrieved,
    retrieve_relevant_chunks mock_backend "xx"
      (build_index mock_backend ["a"; "bbbb"; "cc"]) ["a"; "bbbb"; "cc"]
      (len ["a"; "bbbb"; "cc"])
    = Ok retrieved
    /\ Permutation retrieved ["a"; "bbbb"; "cc"].
Proof.
  apply (retrieve_whole_corpus mock_backend ["a"; "bbbb"; "cc"] "xx"
           mock_flat_index).
  - repeat constructor; simpl; intuition discriminate.
  - discriminate.
Defined.
